(** * EttaWallet: Lightning state store and LDK synchronisation coordinator

    A shallow embedding of
      - [src/state/models/lightning.ts]  (the easy-peasy store model), and
      - [src/ldk/index.ts]               (node lifecycle, watch-transaction
                                          and payment-event reconcilers),
    followed by the properties established about them.

    Conventions.
      - JavaScript strings are [string]; [===] on strings is [String.eqb].
      - JavaScript numbers that hold epoch seconds, heights and amounts are
        integers and are modelled by [Z].
      - An optional property ([alias?: string]) is an [option]; [None] is a
        property the object does not have.
      - A plain object used as a dictionary is a [JsObject.t]: the list of its
        own properties in enumeration order.
      - An easy-peasy action is a function from the state to the next state
        (immer turns the mutations of the draft into the next state); an
        action whose body throws leaves the store as it was. *)

From Stdlib Require Import String Ascii List Bool ZArith NArith Lia.
Import ListNotations.

Local Open Scope string_scope.
Local Open Scope list_scope.

(* ================================================================== *)
(** ** JavaScript values *)

Module Js.

(** [!s] is true exactly for the empty string. *)
Definition truthy_string (s : string) : bool :=
  negb (s =? "").

(** [Array.prototype.includes] on an array of strings. *)
Fixpoint includes (x : string) (l : list string) : bool :=
  match l with
  | [] => false
  | y :: r => if y =? x then true else includes x r
  end.

(** [a || b] where [a] may be [undefined] and every defined value is an
    array (arrays are truthy, the empty one too). *)
Definition or_else {A : Type} (a : option A) (b : A) : A :=
  match a with
  | Some v => v
  | None => b
  end.

Definition is_digit (c : ascii) : bool :=
  let n := N_of_ascii c in ((48 <=? n) && (n <=? 57))%N.

Fixpoint decimal (s : string) (acc : N) : option N :=
  match s with
  | EmptyString => Some acc
  | String c r =>
      if is_digit c
      then decimal r (10 * acc + (N_of_ascii c - 48))%N
      else None
  end.

(** A property key is an array index when it is the canonical decimal
    form of an integer below 2^32 - 1; such keys are enumerated first, in
    numeric order, before the other keys in insertion order. *)
Definition array_index (s : string) : option N :=
  match s with
  | EmptyString => None
  | String "0" EmptyString => Some 0%N
  | String "0" _ => None
  | _ =>
      if (10 <? String.length s)%nat then None
      else match decimal s 0 with
           | Some n => if (n <? 4294967295)%N then Some n else None
           | None => None
           end
  end.

End Js.

(** Plain objects used as dictionaries, with the own-property order of the
    language: [values] is [Object.values], [set k v o] is [{...o, [k]: v}]
    and [spread o1 o2] is [{...o1, ...o2}]. *)
Module JsObject.
Section WithValue.
Context {V : Type}.

Definition t : Type := list (string * V).

Definition empty : t := [].

Fixpoint get (k : string) (o : t) : option V :=
  match o with
  | [] => None
  | (k', v) :: r => if k' =? k then Some v else get k r
  end.

Definition has (k : string) (o : t) : bool :=
  match get k o with
  | Some _ => true
  | None => false
  end.

Fixpoint replace (k : string) (v : V) (o : t) : t :=
  match o with
  | [] => []
  | (k', v') :: r =>
      if k' =? k then (k, v) :: r else (k', v') :: replace k v r
  end.

Fixpoint insert_index (n : N) (k : string) (v : V) (o : t) : t :=
  match o with
  | [] => [(k, v)]
  | (k', v') :: r =>
      match Js.array_index k' with
      | Some m =>
          if (m <? n)%N then (k', v') :: insert_index n k v r
          else (k, v) :: o
      | None => (k, v) :: o
      end
  end.

Definition set (k : string) (v : V) (o : t) : t :=
  if has k o then replace k v o
  else match Js.array_index k with
       | Some n => insert_index n k v o
       | None => o ++ [(k, v)]
       end.

Definition spread (o1 o2 : t) : t :=
  fold_left (fun acc kv => set (fst kv) (snd kv) acc) o2 o1.

Definition values (o : t) : list V := map snd o.

End WithValue.
Arguments t : clear implicits.
End JsObject.

(* ================================================================== *)
(** ** Data model ([utils/types] and the LDK bindings' types) *)

(** [TInvoice] of the LDK bindings, with the fields the wallet reads. *)
Module TInvoice.
Record t : Type := mk {
  payment_hash : string;
  payee_pub_key : string;
  timestamp : Z;
  expiry_time : Z;
  to_str : string;
  description : option string;
  amount_satoshis : option Z
}.

Definition with_to_str (s : string) (i : t) : t :=
  mk (payment_hash i) (payee_pub_key i) (timestamp i) (expiry_time i)
     s (description i) (amount_satoshis i).
End TInvoice.

(** [TModifyInvoice]: the payload of [updateInvoice]. *)
Module TModifyInvoice.
Record t : Type := mk {
  payment_hash : string;
  modified_request : string
}.
End TModifyInvoice.

Inductive EPaymentType : Type :=
| sent
| received.

(** Modelled from the spec: the declaration of [TLightningPayment] lives in
    [utils/types], which is not among the sources. A Payment is "keyed by
    payment hash, holding a reference to its Invoice and a direction tag
    {sent, received}"; [addPayment] below builds exactly these two
    properties. *)
Module TLightningPayment.
Record t : Type := mk {
  invoice : TInvoice.t;
  type : EPaymentType
}.
End TLightningPayment.

(** [TChannel] of the LDK bindings; the store only moves whole records. *)
Module TChannel.
Record t : Type := mk {
  channel_id : string;
  counterparty_node_id : string;
  is_usable : bool;
  balance_sat : Z
}.
End TChannel.

(** An address of a contact, as built by the "add address" sheet. *)
Module TIdentifier.
Record t : Type := mk {
  id : string;
  label : string;
  address : string
}.
End TIdentifier.

(** [TContact]: [id] is required, the sheets build payloads with and
    without [alias], [date_added] and [identifiers]; [items] is the property
    written by [deleteContactAddress]. *)
Module TContact.
Record t : Type := mk {
  id : string;
  alias : option string;
  date_added : option Z;
  identifiers : option (list TIdentifier.t);
  items : option (list TIdentifier.t)
}.

Definition with_identifiers (l : list TIdentifier.t) (c : t) : t :=
  mk (id c) (alias c) (date_added c) (Some l) (items c).

Definition with_items (l : list TIdentifier.t) (c : t) : t :=
  mk (id c) (alias c) (date_added c) (identifiers c) (Some l).

(** [{...a, ...b}]: every property [b] has overrides that of [a]. *)
Definition spread (a b : t) : t :=
  mk (id b)
     (match alias b with Some x => Some x | None => alias a end)
     (match date_added b with Some x => Some x | None => date_added a end)
     (match identifiers b with Some x => Some x | None => identifiers a end)
     (match items b with Some x => Some x | None => items a end).
End TContact.

(** The members of [NodeState] the store model names; the enumeration's
    declaration is in [utils/types]. *)
Inductive NodeState : Type :=
| OFFLINE
| COMPLETE
| NodeState_other (name : string).

Definition NodeState_eqb (a b : NodeState) : bool :=
  match a, b with
  | OFFLINE, OFFLINE => true
  | COMPLETE, COMPLETE => true
  | NodeState_other x, NodeState_other y => x =? y
  | _, _ => false
  end.

Module TLightningNodeVersion.
Record t : Type := mk {
  ldk : string;
  c_bindings : string
}.
End TLightningNodeVersion.

(* ================================================================== *)
(** ** The store model ([state/models/lightning.ts]) *)

Module LightningStore.

Record LightningNodeModelType : Type := mkState {
  ldkState : NodeState;
  nodeId : option string;
  nodeStarted : bool;
  ldkVersion : TLightningNodeVersion.t;
  channels : JsObject.t TChannel.t;
  openChannelIds : list string;
  invoices : list TInvoice.t;
  payments : JsObject.t TLightningPayment.t;
  peers : list string;
  contacts : list TContact.t;
  claimableBalance : Z;
  maxReceivable : Z;
  defaultPRDescription : string;
  defaultPRExpiry : Z
}.

Definition lightningModel : LightningNodeModelType :=
  {| ldkState := OFFLINE;
     nodeStarted := false;
     nodeId := None;
     ldkVersion := TLightningNodeVersion.mk "" "";
     channels := JsObject.empty;
     invoices := [];
     payments := JsObject.empty;
     peers := [];
     contacts := [];
     openChannelIds := [];
     claimableBalance := 0;
     maxReceivable := 0;
     defaultPRDescription := "Invoice from EttaWallet";
     defaultPRExpiry := 604800 |}.

(** Assignments to one property of the draft. *)
Section Assign.
Variable s : LightningNodeModelType.

Definition assign_ldkState v :=
  mkState v (nodeId s) (nodeStarted s) (ldkVersion s) (channels s)
    (openChannelIds s) (invoices s) (payments s) (peers s) (contacts s)
    (claimableBalance s) (maxReceivable s) (defaultPRDescription s)
    (defaultPRExpiry s).
Definition assign_nodeId v :=
  mkState (ldkState s) v (nodeStarted s) (ldkVersion s) (channels s)
    (openChannelIds s) (invoices s) (payments s) (peers s) (contacts s)
    (claimableBalance s) (maxReceivable s) (defaultPRDescription s)
    (defaultPRExpiry s).
Definition assign_nodeStarted v :=
  mkState (ldkState s) (nodeId s) v (ldkVersion s) (channels s)
    (openChannelIds s) (invoices s) (payments s) (peers s) (contacts s)
    (claimableBalance s) (maxReceivable s) (defaultPRDescription s)
    (defaultPRExpiry s).
Definition assign_ldkVersion v :=
  mkState (ldkState s) (nodeId s) (nodeStarted s) v (channels s)
    (openChannelIds s) (invoices s) (payments s) (peers s) (contacts s)
    (claimableBalance s) (maxReceivable s) (defaultPRDescription s)
    (defaultPRExpiry s).
Definition assign_channels v :=
  mkState (ldkState s) (nodeId s) (nodeStarted s) (ldkVersion s) v
    (openChannelIds s) (invoices s) (payments s) (peers s) (contacts s)
    (claimableBalance s) (maxReceivable s) (defaultPRDescription s)
    (defaultPRExpiry s).
Definition assign_openChannelIds v :=
  mkState (ldkState s) (nodeId s) (nodeStarted s) (ldkVersion s)
    (channels s) v (invoices s) (payments s) (peers s) (contacts s)
    (claimableBalance s) (maxReceivable s) (defaultPRDescription s)
    (defaultPRExpiry s).
Definition assign_invoices v :=
  mkState (ldkState s) (nodeId s) (nodeStarted s) (ldkVersion s)
    (channels s) (openChannelIds s) v (payments s) (peers s) (contacts s)
    (claimableBalance s) (maxReceivable s) (defaultPRDescription s)
    (defaultPRExpiry s).
Definition assign_payments v :=
  mkState (ldkState s) (nodeId s) (nodeStarted s) (ldkVersion s)
    (channels s) (openChannelIds s) (invoices s) v (peers s) (contacts s)
    (claimableBalance s) (maxReceivable s) (defaultPRDescription s)
    (defaultPRExpiry s).
Definition assign_peers v :=
  mkState (ldkState s) (nodeId s) (nodeStarted s) (ldkVersion s)
    (channels s) (openChannelIds s) (invoices s) (payments s) v
    (contacts s) (claimableBalance s) (maxReceivable s)
    (defaultPRDescription s) (defaultPRExpiry s).
Definition assign_contacts v :=
  mkState (ldkState s) (nodeId s) (nodeStarted s) (ldkVersion s)
    (channels s) (openChannelIds s) (invoices s) (payments s) (peers s)
    v (claimableBalance s) (maxReceivable s) (defaultPRDescription s)
    (defaultPRExpiry s).
Definition assign_claimableBalance v :=
  mkState (ldkState s) (nodeId s) (nodeStarted s) (ldkVersion s)
    (channels s) (openChannelIds s) (invoices s) (payments s) (peers s)
    (contacts s) v (maxReceivable s) (defaultPRDescription s)
    (defaultPRExpiry s).
Definition assign_maxReceivable v :=
  mkState (ldkState s) (nodeId s) (nodeStarted s) (ldkVersion s)
    (channels s) (openChannelIds s) (invoices s) (payments s) (peers s)
    (contacts s) (claimableBalance s) v (defaultPRDescription s)
    (defaultPRExpiry s).
Definition assign_defaultPRDescription v :=
  mkState (ldkState s) (nodeId s) (nodeStarted s) (ldkVersion s)
    (channels s) (openChannelIds s) (invoices s) (payments s) (peers s)
    (contacts s) (claimableBalance s) (maxReceivable s) v
    (defaultPRExpiry s).
Definition assign_defaultPRExpiry v :=
  mkState (ldkState s) (nodeId s) (nodeStarted s) (ldkVersion s)
    (channels s) (openChannelIds s) (invoices s) (payments s) (peers s)
    (contacts s) (claimableBalance s) (maxReceivable s)
    (defaultPRDescription s) v.
End Assign.

(** *** Scalar settings *)

Definition setDefaultPRDescription (payload : string) state :=
  assign_defaultPRDescription state payload.

Definition setDefaultPRExpiry (payload : Z) state :=
  assign_defaultPRExpiry state payload.

Definition setNodeId (payload : string) state :=
  assign_nodeId state (Some payload).

Definition setLdkVersion (payload : TLightningNodeVersion.t) state :=
  assign_ldkVersion state payload.

Definition setLdkState (payload : NodeState) state :=
  let state := assign_ldkState state payload in
  if NodeState_eqb payload COMPLETE
  then assign_nodeStarted state true
  else state.

Definition setNodeStarted (payload : bool) state :=
  assign_nodeStarted state payload.

Definition updateClaimableBalance (payload : Z) state :=
  assign_claimableBalance state payload.

Definition setMaxReceivable (payload : Z) state :=
  assign_maxReceivable state payload.

Definition addPeer (payload : string) state :=
  assign_peers state (peers state ++ [payload]).

(** *** Invoices *)

Definition addInvoice (payload : TInvoice.t) state :=
  assign_invoices state (invoices state ++ [payload]).

Definition updateInvoice (payload : TModifyInvoice.t) state :=
  assign_invoices state
    (map (fun invoice =>
            if TInvoice.payment_hash invoice
               =? TModifyInvoice.payment_hash payload
            then TInvoice.with_to_str
                   (TModifyInvoice.modified_request payload) invoice
            else invoice)
         (invoices state)).

(** [findIndex] followed by [splice(index, 1)]: the first element that
    satisfies the test is taken out. *)
Fixpoint splice_first {A : Type} (test : A -> bool) (l : list A) : list A :=
  match l with
  | [] => []
  | x :: r => if test x then r else x :: splice_first test r
  end.

Definition removeInvoice (payload : string) state :=
  assign_invoices state
    (splice_first (fun invoice => TInvoice.payment_hash invoice =? payload)
       (invoices state)).

(** [Date_now] is the value of [Date.now()], in milliseconds; [Z.div]
    rounds down, as [Math.floor] does. *)
Definition removeExpiredInvoices (Date_now : Z) state :=
  let nowInSecs := (Date_now / 1000)%Z in
  assign_invoices state
    (filter (fun invoice =>
               (nowInSecs <? TInvoice.timestamp invoice
                             + TInvoice.expiry_time invoice)%Z)
       (invoices state)).

(** *** Channels *)

(** The two properties of [Partial<LightningNodeModelType>] that
    [updateChannels] reads. *)
Record TChannelsPayload : Type := mkChannelsPayload {
  payload_channels : option (JsObject.t TChannel.t);
  payload_openChannelIds : option (list string)
}.

Definition updateChannels (payload : TChannelsPayload) state :=
  let state :=
    assign_channels state
      (JsObject.spread (channels state)
         (Js.or_else (payload_channels payload) JsObject.empty)) in
  let newChannelIds := Js.or_else (payload_openChannelIds payload) [] in
  let uniqueIds :=
    filter (fun id => negb (Js.includes id (openChannelIds state)))
      newChannelIds in
  assign_openChannelIds state (openChannelIds state ++ uniqueIds).

(** *** Payments *)

Definition addPayment (payload : TLightningPayment.t) state :=
  assign_payments state
    (JsObject.set
       (TInvoice.payment_hash (TLightningPayment.invoice payload))
       (TLightningPayment.mk
          (TLightningPayment.invoice payload)
          (match nodeId state with
           | Some n =>
               if TInvoice.payee_pub_key (TLightningPayment.invoice payload)
                  =? n
               then received else sent
           | None => sent
           end))
       (payments state)).

(** [Object.assign(payment, payload)]: every property of the payload is
    copied onto the payment. *)
Definition Object_assign (payment payload : TLightningPayment.t)
  : TLightningPayment.t :=
  TLightningPayment.mk
    (TLightningPayment.invoice payload)
    (TLightningPayment.type payload).

(** The first of [Object.values(state.payments)] whose invoice has the
    payload's hash is mutated in place. *)
Fixpoint assign_first_payment (payload : TLightningPayment.t)
  (o : JsObject.t TLightningPayment.t) : JsObject.t TLightningPayment.t :=
  match o with
  | [] => []
  | (k, p) :: r =>
      if TInvoice.payment_hash (TLightningPayment.invoice p)
         =? TInvoice.payment_hash (TLightningPayment.invoice payload)
      then (k, Object_assign p payload) :: r
      else (k, p) :: assign_first_payment payload r
  end.

Definition updatePayment (payload : TLightningPayment.t) state :=
  assign_payments state (assign_first_payment payload (payments state)).

(** *** Contacts *)

Definition addContact (payload : TContact.t) state :=
  assign_contacts state (contacts state ++ [payload]).

Record TUpdateContact : Type := mkUpdateContact {
  contactId : string;
  updatedContact : TContact.t
}.

Definition updateContact (payload : TUpdateContact) state :=
  let contactId := contactId payload in
  let updatedContact := updatedContact payload in
  if Js.truthy_string contactId then
    assign_contacts state
      (map (fun contact =>
              if TContact.id contact =? contactId then
                let mergedIdentifiers :=
                  match TContact.identifiers updatedContact with
                  | Some ids =>
                      Js.or_else (TContact.identifiers contact) [] ++ ids
                  | None => Js.or_else (TContact.identifiers contact) []
                  end in
                TContact.with_identifiers mergedIdentifiers
                  (TContact.spread contact updatedContact)
              else contact)
         (contacts state))
  else state.

Definition deleteContact (payload : string) state :=
  assign_contacts state
    (splice_first (fun contact => TContact.id contact =? payload)
       (contacts state)).

Record TDeleteContactAddress : Type := mkDeleteContactAddress {
  del_contactId : string;
  del_addressId : string
}.

(** [Array.prototype.map] with a callback that may throw: the first
    exception ends the traversal. [None] is the thrown [TypeError]. *)
Fixpoint map_throwing {A B : Type} (f : A -> option B) (l : list A)
  : option (list B) :=
  match l with
  | [] => Some []
  | x :: r =>
      match f x with
      | None => None
      | Some y =>
          match map_throwing f r with
          | None => None
          | Some ys => Some (y :: ys)
          end
      end
  end.

(** [contact.identifiers!.filter(identity => identity.id !== addressId)];
    the [!] is erased by the compiler: without the property the call
    throws. *)
Definition filter_identifiers (addressId : string) (contact : TContact.t)
  : option (list TIdentifier.t) :=
  match TContact.identifiers contact with
  | Some ids =>
      Some (filter (fun identity =>
                      negb (TIdentifier.id identity =? addressId)) ids)
  | None => None
  end.

Definition deleteContactAddress (payload : TDeleteContactAddress) state
  : option LightningNodeModelType :=
  let contactId := del_contactId payload in
  let addressId := del_addressId payload in
  match
    map_throwing
      (fun contact =>
         if TContact.id contact =? contactId then
           match filter_identifiers addressId contact with
           | Some updatedIdentifiers =>
               Some (TContact.with_identifiers updatedIdentifiers contact)
           | None => None
           end
         else Some contact)
      (contacts state)
  with
  | None => None
  | Some contacts1 =>
      match
        map_throwing
          (fun contact =>
             match filter_identifiers addressId contact with
             | Some updatedIdentifiers =>
                 Some (TContact.with_items updatedIdentifiers contact)
             | None => None
             end)
          contacts1
      with
      | None => None
      | Some contacts2 => Some (assign_contacts state contacts2)
      end
  end.

(** *** Dispatching the contact actions *)

Inductive ContactAction : Type :=
| AddContact (payload : TContact.t)
| UpdateContact (payload : TUpdateContact)
| DeleteContact (payload : string)
| DeleteContactAddress (payload : TDeleteContactAddress).

(** An action that throws produces no next state: the store keeps the
    state it had. *)
Definition dispatch (a : ContactAction) state : LightningNodeModelType :=
  match a with
  | AddContact p => addContact p state
  | UpdateContact p => updateContact p state
  | DeleteContact p => deleteContact p state
  | DeleteContactAddress p =>
      match deleteContactAddress p state with
      | Some state' => state'
      | None => state
      end
  end.

(** States the contact actions lead to from the initial state. *)
Inductive reachable : LightningNodeModelType -> Prop :=
| reachable_init : reachable lightningModel
| reachable_step a state :
    reachable state -> reachable (dispatch a state).

End LightningStore.

(* ================================================================== *)
(** ** Results ([utils/result]) and the values the coordinator tests *)

(** The kinds of value [ToBoolean] tells apart. *)
Inductive JsKind : Type :=
| KUndefined
| KNull
| KBoolean (b : bool)
| KNumber (n : Z)
| KString (s : string)
| KObject.

Definition ToBoolean (k : JsKind) : bool :=
  match k with
  | KUndefined => false
  | KNull => false
  | KBoolean b => b
  | KNumber n => negb (n =? 0)%Z
  | KString s => Js.truthy_string s
  | KObject => true
  end.

(** [ok(value)] and [err(message)] build objects that answer [isOk()] and
    [isErr()] and carry [value], respectively [error.message]. *)
Inductive Result (A : Type) : Type :=
| ok (value : A)
| err (message : string).
Arguments ok {A} value.
Arguments err {A} message.

Definition isOk {A : Type} (r : Result A) : bool :=
  match r with
  | ok _ => true
  | err _ => false
  end.

Definition isErr {A : Type} (r : Result A) : bool := negb (isOk r).

(** Both are objects, whatever they carry. *)
Definition Result_kind {A : Type} (r : Result A) : JsKind := KObject.

(* ================================================================== *)
(** ** Types of the LDK bindings used by [ldk/index.ts] *)

Module TAccount.
Record t : Type := mk {
  name : string;
  seed : string
}.
End TAccount.

Module TWatchTx.
Record t : Type := mk {
  txid : string;
  script_pubkey : string
}.
End TWatchTx.

(** An entry of a script's history: [{ txid, height }]. *)
Module THistory.
Record t : Type := mk {
  txid : string;
  height : Z
}.
End THistory.

Module TVout.
Record t : Type := mk {
  n : Z;
  hex : string;
  value : Z
}.
End TVout.

Module TTransactionData.
Record t : Type := mk {
  header : string;
  height : Z;
  transaction : string;
  vout : list TVout.t
}.
End TTransactionData.

Definition DefaultTransactionDataShape : TTransactionData.t :=
  TTransactionData.mk "" 0 "" [].

(** The argument of [ldk.setTxConfirmed]. *)
Module TSetTxConfirmedReq.
Record t : Type := mk {
  header : string;
  height : Z;
  txData : list (string * Z)     (* [{ transaction, pos }] *)
}.
End TSetTxConfirmedReq.

Module TChannelManagerClaim.
Record t : Type := mk {
  payment_hash : string;
  amount_sat : Z
}.
End TChannelManagerClaim.

Inductive EEventTypes : Type :=
| channel_manager_payment_claimed
| new_channel.

(** The answer of [electrum.getTransactions] for one transaction hash. *)
Module Electrum.
Record TxResult : Type := mkTxResult {
  confirmations : Z;
  hex : string;
  vout : list TVout.t
}.
Record TxItem : Type := mkTxItem {
  item_error : bool;
  result : TxResult
}.
Record Response : Type := mkResponse {
  error : bool;
  data : option (list TxItem)
}.
End Electrum.

(* ================================================================== *)
(** ** The world [ldk/index.ts] runs in *)

(** What the module does to its collaborators, in order. *)
Inductive Event : Type :=
| Ev_ldk_reset
| Ev_getLdkAccount
| Ev_setLdkStoragePath
| Ev_lm_start (account : TAccount.t) (network : string)
| Ev_ldk_nodeId
| Ev_getNodeVersion
| Ev_refreshLdk (selectedNetwork : string)
| Ev_sleep (ms : Z)
| Ev_getScriptPubKeyHistory (scriptPubkey : string)
| Ev_setTxConfirmed (req : TSetTxConfirmedReq.t)
| Ev_onEvent (type : EEventTypes).

(** A call either returns or throws (a rejected promise, once awaited). *)
Inductive Outcome (A : Type) : Type :=
| Returned (a : A)
| Threw (e : string).
Arguments Returned {A} a.
Arguments Threw {A} e.

(** The collaborators: the node engine, the chain-data source, secure
    storage. [refreshLdk_result n] is what the call of [refreshLdk] that
    follows [n] earlier ones resolves to. *)
Record Env : Type := mkEnv {
  getSelectedNetwork : string;
  ldk_reset : Outcome (Result string);
  getLdkAccount : Outcome (Result TAccount.t);
  setLdkStoragePath : Outcome (Result string);
  lm_start : TAccount.t -> string -> Outcome (Result string);
  ldk_nodeId : Outcome (Result string);
  getNodeVersion : Outcome (Result TLightningNodeVersion.t);
  refreshLdk_result : nat -> Result string;
  lm_watchTxs : list TWatchTx.t;
  getScriptPubKeyHistory : string -> list THistory.t;
  electrum_getTransactions : string -> Outcome Electrum.Response;
  getBlockHeader_height : Z;
  getBlockHex : Z -> Outcome (Result string)
}.

(** The module-level variables, the store and the calls made so far. *)
Record World : Type := mkWorld {
  store : LightningStore.LightningNodeModelType;
  LDKIsStayingSynced : bool;
  paymentSubscription : bool;
  onChannelSubscription : bool;
  trace : list Event
}.

Definition with_store f (w : World) : World :=
  mkWorld (f (store w)) (LDKIsStayingSynced w) (paymentSubscription w)
    (onChannelSubscription w) (trace w).

Definition with_LDKIsStayingSynced (b : bool) (w : World) : World :=
  mkWorld (store w) b (paymentSubscription w) (onChannelSubscription w)
    (trace w).

Definition with_paymentSubscription (b : bool) (w : World) : World :=
  mkWorld (store w) (LDKIsStayingSynced w) b (onChannelSubscription w)
    (trace w).

Definition with_onChannelSubscription (b : bool) (w : World) : World :=
  mkWorld (store w) (LDKIsStayingSynced w) (paymentSubscription w) b
    (trace w).

Definition emit (e : Event) (w : World) : World :=
  mkWorld (store w) (LDKIsStayingSynced w) (paymentSubscription w)
    (onChannelSubscription w) (trace w ++ [e]).

Definition initial_world : World :=
  mkWorld LightningStore.lightningModel false false false [].

(** *** Computations: state passing with exceptions *)

Definition M (A : Type) : Type := World -> Outcome A * World.

Definition ret {A : Type} (a : A) : M A := fun w => (Returned a, w).

Definition throw {A : Type} (e : string) : M A := fun w => (Threw e, w).

Definition bind {A B : Type} (m : M A) (k : A -> M B) : M B :=
  fun w =>
    match m w with
    | (Returned a, w') => k a w'
    | (Threw e, w') => (Threw e, w')
    end.

Definition try_catch {A : Type} (body : M A) (handler : string -> M A) : M A :=
  fun w =>
    match body w with
    | (Returned a, w') => (Returned a, w')
    | (Threw e, w') => handler e w'
    end.

Declare Scope ldk_scope.
Delimit Scope ldk_scope with ldk.
Notation "x <- m ;; k" := (bind m (fun x => k))
  (at level 61, m at next level, right associativity) : ldk_scope.
Notation "m ;;; k" := (bind m (fun _ => k))
  (at level 61, right associativity) : ldk_scope.

(** An awaited call of a collaborator: recorded, then returns or throws. *)
Definition call {A : Type} (e : Event) (o : Outcome A) : M A :=
  fun w => (o, emit e w).

Definition modify (f : World -> World) : M unit :=
  fun w => (Returned tt, f w).

Definition get_world : M World := fun w => (Returned w, w).

(* ================================================================== *)
(** ** [utils/lightning/helpers]: the glue between the coordinator and
       the store *)

Module Helpers.

(** Modelled from the spec: [getLightningStore] of
    [utils/lightning/helpers] is not among the sources; it is the read
    accessor of the Wallet State Store ("read by all other
    components"). *)
Definition getLightningStore : M LightningStore.LightningNodeModelType :=
  fun w => (Returned (store w), w).

(** Modelled from the spec: [addPayment] of [utils/lightning/helpers] is
    not among the sources. On a claimed payment the reconciler "creates a
    Payment record (direction inferred per §3), appends it to state": the
    helper hands the invoice to the store's [addPayment] transition, which
    infers the direction and does not read the payload's own tag. *)
Definition addPayment (invoice : TInvoice.t) : M unit :=
  modify
    (with_store
       (fun state =>
          LightningStore.addPayment
            (TLightningPayment.mk invoice received) state)).

(** Modelled from the spec: [updateLdkNodeId] of
    [utils/lightning/helpers] is not among the sources; setup step (e)
    "record node identity and version into the Wallet State Store" is the
    store's [setNodeId] transition. *)
Definition updateLdkNodeId (nodeId : string) : M unit :=
  modify (with_store (LightningStore.setNodeId nodeId)).

End Helpers.

(* ================================================================== *)
(** ** The coordinator ([ldk/index.ts]) *)

Module Ldk.
Section WithEnv.
Variable env : Env.

Local Open Scope ldk_scope.

Definition is_refreshLdk (e : Event) : bool :=
  match e with
  | Ev_refreshLdk _ => true
  | _ => false
  end.

(** The number of sync attempts made so far. *)
Definition sync_attempts (w : World) : nat :=
  length (filter is_refreshLdk (trace w)).

Definition network_or_selected (selectedNetwork : option string) : string :=
  match selectedNetwork with
  | Some n => n
  | None => getSelectedNetwork env
  end.

(** [refreshLdk] is kept as a call of the coordinator on itself: its
    whole body is inside [try]/[catch], so it always resolves to a
    result, here the one the environment gives for this attempt. Within
    [keepLdkSynced] the guard flag is set, so the nested
    [keepLdkSynced({})] it may start returns at once. What the call does
    on its way (the liveness probe, a reset and a setup of a node that is
    down, the engine's sync, the refresh of channels and balance in the
    store) is not part of this model: the statements below speak of it
    only as one call with one result. *)
Definition refreshLdk (selectedNetwork : option string)
  : World -> Result string * World :=
  fun w =>
    (refreshLdk_result env (sync_attempts w),
     emit (Ev_refreshLdk (network_or_selected selectedNetwork)) w).

Definition resetLdk : M (Result string) :=
  call Ev_ldk_reset (ldk_reset env).

(** *** [keepLdkSynced] *)

(** Where a run of the loop stands after a number of iterations. *)
Inductive Run : Type :=
| Resolved (w : World)        (* the promise of [keepLdkSynced] resolved *)
| Looping (w : World).        (* still inside [while], about to iterate *)

Definition sleep (ms : Z) (w : World) : World := emit (Ev_sleep ms) w.

(** [fuel] bounds the iterations observed. *)
Fixpoint keepLdkSynced_loop (fuel : nat) (frequency : Z)
  (selectedNetwork : string) (error : string) (w : World) : Run :=
  if negb (Js.truthy_string error) then
    match fuel with
    | O => Looping w
    | S fuel' =>
        let (syncRes, w) := refreshLdk (Some selectedNetwork) w in
        if negb (ToBoolean (Result_kind syncRes)) then
          (* error = 'Could not refresh LDK.'; break *)
          Resolved (with_LDKIsStayingSynced false w)
        else
          keepLdkSynced_loop fuel' frequency selectedNetwork error
            (sleep frequency w)
    end
  else Resolved w.

Definition keepLdkSynced (fuel : nat) (frequency : option Z)
  (selectedNetwork : option string) (w : World) : Run :=
  let frequency := Js.or_else frequency 120000%Z in
  if LDKIsStayingSynced w then Resolved w
  else
    let w := with_LDKIsStayingSynced true w in
    let selectedNetwork := network_or_selected selectedNetwork in
    keepLdkSynced_loop fuel frequency selectedNetwork "" w.

(** The world a run has reached. *)
Definition world_of (r : Run) : World :=
  match r with
  | Resolved w => w
  | Looping w => w
  end.

(** *** [subscribeToPayments] *)

Definition subscribeToPayments (selectedNetwork : option string) : M unit :=
  w <- get_world ;;
  (if negb (paymentSubscription w) then
     call (Ev_onEvent channel_manager_payment_claimed) (Returned tt) ;;;
     modify (with_paymentSubscription true)
   else ret tt) ;;;
  w <- get_world ;;
  (if negb (onChannelSubscription w) then
     call (Ev_onEvent new_channel) (Returned tt) ;;;
     modify (with_onChannelSubscription true)
   else ret tt).

(** Modelled from the spec: [updateLdkVersion] of
    [utils/lightning/helpers] is not among the sources; it takes part in
    setup step (e), "record node identity and version into the Wallet
    State Store", through the store's [setLdkVersion] transition. *)
Definition updateLdkVersion : M unit :=
  version <- call Ev_getNodeVersion (getNodeVersion env) ;;
  match version with
  | ok v => modify (with_store (LightningStore.setLdkVersion v))
  | err _ => ret tt
  end.

(** *** [setupLdk] *)

Definition setupLdk (selectedNetwork : option string)
  (shouldRefreshLdk : bool) : M (Result string) :=
  try_catch
    (let selectedNetwork := network_or_selected selectedNetwork in
     resetLdk ;;;
     account <- call Ev_getLdkAccount (getLdkAccount env) ;;
     match account with
     | err message => ret (err message)
     | ok account_value =>
         storageRes <- call Ev_setLdkStoragePath (setLdkStoragePath env) ;;
         match storageRes with
         | err e => ret (err e)
         | ok _ =>
             lmStart <- call (Ev_lm_start account_value selectedNetwork)
                          (lm_start env account_value selectedNetwork) ;;
             match lmStart with
             | err message => ret (err ("@lmStart: " ++ message)%string)
             | ok _ =>
                 nodeIdRes <- call Ev_ldk_nodeId (ldk_nodeId env) ;;
                 match nodeIdRes with
                 | err message => ret (err message)
                 | ok nodeId_value =>
                     Helpers.updateLdkNodeId nodeId_value ;;;
                     updateLdkVersion ;;;
                     (if shouldRefreshLdk then
                        fun w =>
                          (Returned tt,
                           snd (refreshLdk (Some selectedNetwork) w))
                      else ret tt) ;;;
                     subscribeToPayments (Some selectedNetwork) ;;;
                     ret (ok ("LDK NodeID: " ++ nodeId_value)%string)
                 end
             end
         end
     end)
    (fun e => ret (err e)).

(** *** [_getTransactionData] *)

(** Every failure, a thrown one too, gives the default shape. *)
Definition _getTransactionData (txId : string) : TTransactionData.t :=
  let transactionData := DefaultTransactionDataShape in
  match electrum_getTransactions env txId with
  | Threw _ => transactionData
  | Returned response =>
      match Electrum.data response with
      | None => transactionData
      | Some [] => transactionData
      | Some (first :: _) =>
          if Electrum.error response || Electrum.item_error first
          then transactionData
          else
            let confirmations :=
              Electrum.confirmations (Electrum.result first) in
            let currentHeight := getBlockHeader_height env in
            let confirmedHeight :=
              if ToBoolean (KNumber confirmations)
              then (currentHeight - confirmations + 1)%Z
              else 0%Z in
            match getBlockHex env confirmedHeight with
            | Threw _ => transactionData
            | Returned (err _) => transactionData
            | Returned (ok hexEncodedHeader) =>
                TTransactionData.mk hexEncodedHeader confirmedHeight
                  (Electrum.hex (Electrum.result first))
                  (Electrum.vout (Electrum.result first))
            end
      end
  end.

(** *** [checkWatchTxs] *)

Definition confirmed_req (txData : TTransactionData.t)
  : TSetTxConfirmedReq.t :=
  TSetTxConfirmedReq.mk
    (TTransactionData.header txData)
    (TTransactionData.height txData)
    [(TTransactionData.transaction txData, 0%Z)].

(** The inner [for]: [true] is the [return true] of the function. *)
Fixpoint history_loop (watchTransactionIds : list string)
  (scriptPubKeyHistory : list THistory.t) : M bool :=
  match scriptPubKeyHistory with
  | [] => ret false
  | data :: rest =>
      if negb (Js.includes (THistory.txid data) watchTransactionIds) then
        let txData := _getTransactionData (THistory.txid data) in
        call (Ev_setTxConfirmed (confirmed_req txData)) (Returned tt) ;;;
        ret true
      else history_loop watchTransactionIds rest
  end.

(** The outer [for], with the scripts checked so far. *)
Fixpoint watch_loop (watchTransactionIds : list string)
  (checkedScriptPubKeys : list string) (watchTxs : list TWatchTx.t)
  : M bool :=
  match watchTxs with
  | [] => ret false
  | watchTx :: rest =>
      let script := TWatchTx.script_pubkey watchTx in
      if negb (Js.includes script checkedScriptPubKeys) then
        scriptPubKeyHistory <-
          call (Ev_getScriptPubKeyHistory script)
            (Returned (getScriptPubKeyHistory env script)) ;;
        found <- history_loop watchTransactionIds scriptPubKeyHistory ;;
        if found : bool then ret true
        else watch_loop watchTransactionIds
               (checkedScriptPubKeys ++ [script]) rest
      else watch_loop watchTransactionIds checkedScriptPubKeys rest
  end.

Definition checkWatchTxs : M bool :=
  let watchTransactionIds := map TWatchTx.txid (lm_watchTxs env) in
  watch_loop watchTransactionIds [] (lm_watchTxs env).

(** *** [getPendingInvoice] and [handlePaymentSubscription] *)

Definition getPendingInvoice (paymentHash : string)
  (selectedNetwork : option string) : M (Result TInvoice.t) :=
  try_catch
    (state <- Helpers.getLightningStore ;;
     let invoices := LightningStore.invoices state in
     let invoice :=
       filter (fun inv => TInvoice.payment_hash inv =? paymentHash)
         invoices in
     match invoice with
     | first :: _ => ret (ok first)
     | [] => ret (err "Unable to find any pending invoices.")
     end)
    (fun e => ret (err e)).

Definition handlePaymentSubscription (payment : TChannelManagerClaim.t)
  (selectedNetwork : option string) : M unit :=
  let selectedNetwork := network_or_selected selectedNetwork in
  invoice <- getPendingInvoice
               (TChannelManagerClaim.payment_hash payment)
               (Some selectedNetwork) ;;
  match invoice with
  | ok invoice_value =>
      Helpers.addPayment invoice_value ;;;
      fun w => (Returned tt, snd (refreshLdk (Some selectedNetwork) w))
  | err _ => ret tt
  end.

End WithEnv.
End Ldk.

(* ================================================================== *)
(** ** Vocabulary of the statements *)

Import LightningStore.

(** The ids of a contact's identifiers, in order. *)
Definition identifier_ids (c : TContact.t) : list string :=
  map TIdentifier.id (Js.or_else (TContact.identifiers c) []).

(** Within each contact the identifiers have pairwise distinct ids. *)
Definition unique_identifier_ids (state : LightningNodeModelType) : Prop :=
  Forall (fun c => NoDup (identifier_ids c)) (contacts state).

(** What a caller has to supply for the uniqueness of identifier ids to
    survive an action: the store does not test it. *)
Definition supplies_fresh_ids (state : LightningNodeModelType)
  (a : ContactAction) : Prop :=
  match a with
  | AddContact p => NoDup (identifier_ids p)
  | UpdateContact p =>
      forall c, In c (contacts state) ->
                TContact.id c = contactId p ->
                NoDup (identifier_ids c ++ identifier_ids (updatedContact p))
  | DeleteContact _ => True
  | DeleteContactAddress _ => True
  end.

(** States reached when every action comes with fresh identifier ids. *)
Inductive reachable_fresh : LightningNodeModelType -> Prop :=
| reachable_fresh_init : reachable_fresh lightningModel
| reachable_fresh_step a state :
    reachable_fresh state ->
    supplies_fresh_ids state a ->
    reachable_fresh (dispatch a state).

(** The direction [addPayment] infers for an invoice. *)
Definition inferred_direction (state : LightningNodeModelType)
  (invoice : TInvoice.t) : EPaymentType :=
  match nodeId state with
  | Some n => if TInvoice.payee_pub_key invoice =? n then received else sent
  | None => sent
  end.

(** Calls of the node engine in a trace. *)
Definition setTxConfirmed_calls (t : list Event) : list TSetTxConfirmedReq.t :=
  flat_map (fun e => match e with
                     | Ev_setTxConfirmed req => [req]
                     | _ => []
                     end) t.

Definition lm_start_calls (t : list Event) : nat :=
  length (filter (fun e => match e with
                           | Ev_lm_start _ _ => true
                           | _ => false
                           end) t).

(** A history entry whose transaction the watch-list does not know. *)
Definition unseen (env : Env) (data : THistory.t) : bool :=
  negb (Js.includes (THistory.txid data)
          (map TWatchTx.txid (lm_watchTxs env))).

(** The histories of the watched scripts, in watch-list order. *)
Definition watched_history (env : Env) : list THistory.t :=
  flat_map (fun watchTx =>
              getScriptPubKeyHistory env (TWatchTx.script_pubkey watchTx))
    (lm_watchTxs env).

(** The request [checkWatchTxs] sends for a history entry. *)
Definition confirmation_of (env : Env) (data : THistory.t)
  : TSetTxConfirmedReq.t :=
  Ldk.confirmed_req (Ldk._getTransactionData env (THistory.txid data)).

(** How a contact leaves [deleteContactAddress]: the named contact has the
    address filtered out of [identifiers]; every other contact keeps
    [identifiers]; all of them get the filtered list as [items]. *)
Definition address_deleted (payload : TDeleteContactAddress)
  (contact contact' : TContact.t) : Prop :=
  exists ids,
    TContact.identifiers contact = Some ids
    /\ TContact.id contact' = TContact.id contact
    /\ TContact.alias contact' = TContact.alias contact
    /\ TContact.date_added contact' = TContact.date_added contact
    /\ TContact.items contact'
       = Some (filter (fun identity =>
                         negb (TIdentifier.id identity
                               =? del_addressId payload)) ids)
    /\ TContact.identifiers contact'
       = if TContact.id contact =? del_contactId payload
         then Some (filter (fun identity =>
                              negb (TIdentifier.id identity
                                    =? del_addressId payload)) ids)
         else Some ids.

(** The world after further calls. *)
Definition emit_all (events : list Event) (w : World) : World :=
  mkWorld (store w) (LDKIsStayingSynced w) (paymentSubscription w)
    (onChannelSubscription w) (trace w ++ events).

(** The message of a failed load of the account: the one of the error
    result, or the thrown value's text. *)
Definition account_load_error (o : Outcome (Result TAccount.t))
  : option string :=
  match o with
  | Returned (err message) => Some message
  | Threw e => Some e
  | Returned (ok _) => None
  end.

(* ================================================================== *)
(** ** Example data *)

Definition invoice_abc : TInvoice.t :=
  TInvoice.mk "abc" "node123" 1700000000 3600 "lntb1abc" None None.

Definition address_a1 : TIdentifier.t :=
  TIdentifier.mk "a1" "lightning address" "alice@example.com".

Definition address_a2 : TIdentifier.t :=
  TIdentifier.mk "a2" "node" "bob@example.com".

Definition contact_alice : TContact.t :=
  TContact.mk "c1" (Some "Alice") (Some 1700000000000%Z) (Some [address_a1])
    None.

Definition contact_bob : TContact.t :=
  TContact.mk "c2" (Some "Bob") (Some 1700000000001%Z) (Some [address_a1])
    None.

Definition two_contacts : LightningNodeModelType :=
  addContact contact_bob (addContact contact_alice lightningModel).

Definition add_address_a2 : ContactAction :=
  UpdateContact
    (mkUpdateContact "c1"
       (TContact.mk "c1" None None (Some [address_a2]) None)).

Definition contact_carol : TContact.t :=
  TContact.mk "c3" (Some "Carol") (Some 1700000000002%Z) None None.

Definition add_address_a1_to_carol : ContactAction :=
  UpdateContact
    (mkUpdateContact "c3"
       (TContact.mk "c3" None None (Some [address_a1]) None)).

(** An environment whose third sync attempt fails, and only that one. *)
Definition env_third_sync_fails : Env :=
  {| getSelectedNetwork := "bitcoinTestnet";
     ldk_reset := Returned (ok "");
     getLdkAccount := Returned (ok (TAccount.mk "wallet0" "seed"));
     setLdkStoragePath := Returned (ok "");
     lm_start := fun _ _ => Returned (ok "");
     ldk_nodeId := Returned (ok "node123");
     getNodeVersion := Returned (ok (TLightningNodeVersion.mk "0.0.118" "0.0.118.0"));
     refreshLdk_result :=
       fun n => if Nat.eqb n 2 then err "Could not sync" else ok "";
     lm_watchTxs := [];
     getScriptPubKeyHistory := fun _ => [];
     electrum_getTransactions := fun _ => Threw "no connection";
     getBlockHeader_height := 0%Z;
     getBlockHex := fun _ => Threw "no connection" |}.

(** An environment whose secure storage holds no account. *)
Definition env_no_account : Env :=
  {| getSelectedNetwork := "bitcoinTestnet";
     ldk_reset := Returned (ok "");
     getLdkAccount := Returned (err "Unable to retrieve account");
     setLdkStoragePath := Returned (ok "");
     lm_start := fun _ _ => Returned (ok "");
     ldk_nodeId := Returned (ok "node123");
     getNodeVersion := Returned (ok (TLightningNodeVersion.mk "0.0.118" "0.0.118.0"));
     refreshLdk_result := fun _ => ok "";
     lm_watchTxs := [];
     getScriptPubKeyHistory := fun _ => [];
     electrum_getTransactions := fun _ => Threw "no connection";
     getBlockHeader_height := 0%Z;
     getBlockHex := fun _ => Threw "no connection" |}.

(** The scenario of the spec: invoice [abc] is pending for node
    [node123]. *)
Definition world_with_invoice_abc : World :=
  with_store (fun state => addInvoice invoice_abc (setNodeId "node123" state))
    initial_world.

(** A watch-list of two scripts; the history of the second holds a
    transaction, [tx9], that the watch-list does not know. *)
Definition env_two_scripts : Env :=
  {| getSelectedNetwork := "bitcoinTestnet";
     ldk_reset := Returned (ok "");
     getLdkAccount := Returned (ok (TAccount.mk "wallet0" "seed"));
     setLdkStoragePath := Returned (ok "");
     lm_start := fun _ _ => Returned (ok "");
     ldk_nodeId := Returned (ok "node123");
     getNodeVersion := Returned (ok (TLightningNodeVersion.mk "0.0.118" "0.0.118.0"));
     refreshLdk_result := fun _ => ok "";
     lm_watchTxs := [TWatchTx.mk "tx1" "s1"; TWatchTx.mk "tx2" "s2"];
     getScriptPubKeyHistory :=
       fun script =>
         if script =? "s1" then [THistory.mk "tx1" 100]
         else if script =? "s2"
              then [THistory.mk "tx2" 101; THistory.mk "tx9" 102]
              else [];
     electrum_getTransactions :=
       fun txid =>
         Returned
           (Electrum.mkResponse false
              (Some [Electrum.mkTxItem false
                       (Electrum.mkTxResult 4 "rawtx9"
                          [TVout.mk 0 "0014aa" 5000])]));
     getBlockHeader_height := 105%Z;
     getBlockHex := fun _ => Returned (ok "header102") |}.

(* ================================================================== *)
(** ** Further queries and transition systems *)

(** *** [getTransactionPosition] ([ldk/index.ts]) *)

(** The answer of [getTransactionMerkle]; [pos] is [response.data?.pos],
    absent when [data] or [pos] is missing or is not a number. *)
Module Merkle.
Record Response : Type := mkResponse {
  error : bool;
  pos : option Z
}.
End Merkle.

Definition getTransactionPosition
  (getTransactionMerkle : string -> Z -> Merkle.Response)
  (tx_hash : string) (height : Z) : Z :=
  let response := getTransactionMerkle tx_hash height in
  let isNaN_pos :=
    match Merkle.pos response with
    | Some _ => false
    | None => true
    end in
  let pos_negative :=
    match Merkle.pos response with
    | Some p => (p <? 0)%Z
    | None => false
    end in
  if Merkle.error response || isNaN_pos || pos_negative then (-1)%Z
  else match Merkle.pos response with
       | Some p => p
       | None => (-1)%Z
       end.

(** *** Sequences of store actions *)

(** [setLdkState] dispatched for each payload in turn. *)
Definition setLdkState_each (payloads : list NodeState)
  (state : LightningNodeModelType) : LightningNodeModelType :=
  fold_left (fun s payload => setLdkState payload s) payloads state.

Inductive InvoiceAction : Type :=
| AddInvoice (payload : TInvoice.t)
| UpdateInvoice (payload : TModifyInvoice.t)
| RemoveInvoice (payload : string)
| RemoveExpiredInvoices (Date_now : Z).

Definition dispatch_invoice (a : InvoiceAction)
  (state : LightningNodeModelType) : LightningNodeModelType :=
  match a with
  | AddInvoice p => addInvoice p state
  | UpdateInvoice p => updateInvoice p state
  | RemoveInvoice p => removeInvoice p state
  | RemoveExpiredInvoices now => removeExpiredInvoices now state
  end.

(** No two invoices of the store have the same payment hash. *)
Definition unique_payment_hashes (state : LightningNodeModelType) : Prop :=
  NoDup (map TInvoice.payment_hash (invoices state)).

(** [addInvoice] does not look at the hashes already stored: a new hash is
    the caller's business. *)
Definition supplies_fresh_hash (state : LightningNodeModelType)
  (a : InvoiceAction) : Prop :=
  match a with
  | AddInvoice p =>
      ~ In (TInvoice.payment_hash p)
          (map TInvoice.payment_hash (invoices state))
  | _ => True
  end.

Inductive reachable_invoices : LightningNodeModelType -> Prop :=
| reachable_invoices_init : reachable_invoices lightningModel
| reachable_invoices_step a state :
    reachable_invoices state ->
    supplies_fresh_hash state a ->
    reachable_invoices (dispatch_invoice a state).

Inductive PaymentAction : Type :=
| AddPayment (payload : TLightningPayment.t)
| UpdatePayment (payload : TLightningPayment.t)
| SetNodeId (payload : string).

Definition dispatch_payment (a : PaymentAction)
  (state : LightningNodeModelType) : LightningNodeModelType :=
  match a with
  | AddPayment p => addPayment p state
  | UpdatePayment p => updatePayment p state
  | SetNodeId p => setNodeId p state
  end.

Inductive reachable_payments : LightningNodeModelType -> Prop :=
| reachable_payments_init : reachable_payments lightningModel
| reachable_payments_step a state :
    reachable_payments state ->
    reachable_payments (dispatch_payment a state).

(** Every payment sits under the payment hash of its own invoice, and no
    key occurs twice. *)
Definition payments_keyed_by_hash (state : LightningNodeModelType) : Prop :=
  Forall (fun entry =>
            fst entry
            = TInvoice.payment_hash (TLightningPayment.invoice (snd entry)))
    (payments state)
  /\ NoDup (map fst (payments state)).

(** The calls one iteration of [keepLdkSynced] makes. *)
Definition sync_then_sleep (network : string) (frequency : Z) : list Event :=
  [Ev_refreshLdk network; Ev_sleep frequency].

Definition is_onEvent (type : EEventTypes) (e : Event) : bool :=
  match e, type with
  | Ev_onEvent channel_manager_payment_claimed,
    channel_manager_payment_claimed => true
  | Ev_onEvent new_channel, new_channel => true
  | _, _ => false
  end.

(** Listeners registered for an event type in a trace. *)
Definition onEvent_calls (type : EEventTypes) (t : list Event) : nat :=
  length (filter (is_onEvent type) t).

(** *** More example data *)

Definition invoice_def : TInvoice.t :=
  TInvoice.mk "def" "node999" 1700000100 600 "lntb1def" None None.

Definition two_invoices : LightningNodeModelType :=
  addInvoice invoice_def (addInvoice invoice_abc lightningModel).

Definition one_payment : LightningNodeModelType :=
  addPayment (TLightningPayment.mk invoice_abc sent)
    (setNodeId "node123" lightningModel).

Definition merkle_of_tx9 (tx_hash : string) (height : Z) : Merkle.Response :=
  if tx_hash =? "tx9" then Merkle.mkResponse false (Some 7%Z)
  else Merkle.mkResponse true None.

Definition env_start_refused : Env :=
  {| getSelectedNetwork := "bitcoinTestnet";
     ldk_reset := Returned (ok "");
     getLdkAccount := Returned (ok (TAccount.mk "wallet0" "seed"));
     setLdkStoragePath := Returned (ok "");
     lm_start := fun _ _ => Returned (err "already started");
     ldk_nodeId := Returned (ok "node123");
     getNodeVersion := Returned (ok (TLightningNodeVersion.mk "0.0.118" "0.0.118.0"));
     refreshLdk_result := fun _ => ok "";
     lm_watchTxs := [TWatchTx.mk "tx1" "s1"; TWatchTx.mk "tx2" "s1"];
     getScriptPubKeyHistory :=
       fun _ => [THistory.mk "tx1" 100; THistory.mk "tx2" 101];
     electrum_getTransactions := fun _ => Threw "no connection";
     getBlockHeader_height := 0%Z;
     getBlockHex := fun _ => Threw "no connection" |}.

(* ================================================================== *)
(** ** Data for the lookup and setup statements *)



(** The account loads and the engine starts, but the engine's node id
    query fails with the message the account loader of [env_no_account]
    gives. *)
Definition env_node_id_refused : Env :=
  {| getSelectedNetwork := "bitcoinTestnet";
     ldk_reset := Returned (ok "");
     getLdkAccount := Returned (ok (TAccount.mk "wallet0" "seed"));
     setLdkStoragePath := Returned (ok "");
     lm_start := fun _ _ => Returned (ok "");
     ldk_nodeId := Returned (err "Unable to retrieve account");
     getNodeVersion := Returned (ok (TLightningNodeVersion.mk "0.0.118" "0.0.118.0"));
     refreshLdk_result := fun _ => ok "";
     lm_watchTxs := [];
     getScriptPubKeyHistory := fun _ => [];
     electrum_getTransactions := fun _ => Threw "no connection";
     getBlockHeader_height := 0%Z;
     getBlockHex := fun _ => Threw "no connection" |}.

(* ================================================================== *)
(** ** Facts about JavaScript values *)

Lemma includes_In x l : Js.includes x l = true <-> In x l.
Proof.
  induction l as [|y r IH]; simpl.
  - split; [discriminate | tauto].
  - destruct (String.eqb_spec y x) as [->|Hne].
    + split; auto.
    + rewrite IH. split; [auto | intros [H|H]; [congruence | exact H]].
Qed.

Lemma includes_false_In x l : Js.includes x l = false <-> ~ In x l.
Proof.
  rewrite <- includes_In. destruct (Js.includes x l); split; congruence.
Qed.


(** Integer-like keys come first, in numeric order; the others follow in
    insertion order; writing an existing key keeps its place. *)
Example JsObject_property_order :
  map fst
    (JsObject.set "b" 1
       (JsObject.set "2" 2
          (JsObject.set "a" 3
             (JsObject.set "10" 4 (JsObject.set "a" 5 JsObject.empty)))))
  = ["2"; "10"; "a"; "b"]
  /\ JsObject.spread [("a", 1); ("b", 2)] [("c", 3); ("a", 4)]
     = [("a", 4); ("b", 2); ("c", 3)].
Proof. split; reflexivity. Qed.

Section JsObjectFacts.
Context {V : Type}.
Implicit Types (o : JsObject.t V) (k : string) (v : V).

Lemma get_replace k v o k' :
  JsObject.get k o <> None ->
  JsObject.get k' (JsObject.replace k v o)
  = if k =? k' then Some v else JsObject.get k' o.
Proof.
  induction o as [|[k0 v0] r IH]; simpl; intros Hk; [congruence|].
  destruct (String.eqb_spec k0 k) as [->|Hne]; simpl.
  - destruct (String.eqb_spec k k'); reflexivity.
  - destruct (String.eqb_spec k0 k') as [->|Hne'].
    + destruct (String.eqb_spec k k'); congruence.
    + apply IH, Hk.
Qed.

Lemma get_insert_index n k v o k' :
  JsObject.get k o = None ->
  JsObject.get k' (JsObject.insert_index n k v o)
  = if k =? k' then Some v else JsObject.get k' o.
Proof.
  induction o as [|[k0 v0] r IH]; simpl; intros Hk.
  - destruct (k =? k'); reflexivity.
  - destruct (String.eqb_spec k0 k) as [->|Hne]; [discriminate|].
    destruct (Js.array_index k0) as [m|]; [destruct (m <? n)%N|]; simpl;
      try reflexivity.
    destruct (String.eqb_spec k0 k') as [->|Hne'].
    + destruct (String.eqb_spec k k'); congruence.
    + apply IH, Hk.
Qed.

Lemma get_app_last k v o k' :
  JsObject.get k' (o ++ [(k, v)])
  = match JsObject.get k' o with
    | Some x => Some x
    | None => if k =? k' then Some v else None
    end.
Proof.
  induction o as [|[k0 v0] r IH]; simpl; [reflexivity|].
  destruct (k0 =? k'); [reflexivity | exact IH].
Qed.

(** Reading a key after [{...o, [k]: v}]. *)
Lemma get_set k v o k' :
  JsObject.get k' (JsObject.set k v o)
  = if k =? k' then Some v else JsObject.get k' o.
Proof.
  unfold JsObject.set, JsObject.has.
  destruct (JsObject.get k o) as [x|] eqn:Hk.
  - apply get_replace. congruence.
  - destruct (Js.array_index k) as [n|].
    + apply get_insert_index, Hk.
    + rewrite get_app_last.
      destruct (String.eqb_spec k k') as [->|Hne].
      * rewrite Hk. reflexivity.
      * destruct (JsObject.get k' o); reflexivity.
Qed.

(** Reading a key after [{...o1, ...o2}]: the property of [o2] wins (the
    one listed last, as in an object literal). *)
Lemma get_spread o2 : forall o1 k,
  JsObject.get k (JsObject.spread o1 o2)
  = match JsObject.get k (rev o2) with
    | Some x => Some x
    | None => JsObject.get k o1
    end.
Proof.
  unfold JsObject.spread.
  induction o2 as [|[k0 v0] r IH]; intros o1 k; simpl; [reflexivity|].
  rewrite IH, get_app_last, get_set.
  destruct (JsObject.get k (rev r)); [reflexivity|].
  destruct (k0 =? k); reflexivity.
Qed.

End JsObjectFacts.

(* ================================================================== *)
(** ** Invoices *)

(** C6. After [removeExpiredInvoices] has run at [now] (the seconds in
    [Date.now()]), an invoice is in the list exactly when it was there
    before and [timestamp + expiry_time > now]: every invoice that has not
    expired is retained, and no retained invoice satisfies
    [timestamp + expiry_time <= now]. *)
Theorem removeExpiredInvoices_retains_exactly_unexpired :
  forall (Date_now : Z) (state : LightningNodeModelType),
    let now := (Date_now / 1000)%Z in
    let retained := invoices (removeExpiredInvoices Date_now state) in
    (forall invoice,
        In invoice retained <->
        In invoice (invoices state) /\
        (TInvoice.timestamp invoice + TInvoice.expiry_time invoice > now)%Z)
    /\ Forall (fun invoice =>
                 (TInvoice.timestamp invoice + TInvoice.expiry_time invoice
                  > now)%Z
                 /\ ~ (TInvoice.timestamp invoice
                       + TInvoice.expiry_time invoice <= now)%Z)
         retained.
Proof.
  intros Date_now state now retained.
  assert (Hiff : forall invoice,
             In invoice retained <->
             In invoice (invoices state) /\
             (TInvoice.timestamp invoice + TInvoice.expiry_time invoice
              > now)%Z).
  { intros invoice. subst retained now. unfold removeExpiredInvoices. simpl.
    rewrite filter_In, Z.ltb_lt. split; intros [H1 H2]; split; auto; lia. }
  split; [exact Hiff|].
  apply Forall_forall. intros invoice Hin.
  apply Hiff in Hin. destruct Hin as [_ Hgt]. split; lia.
Qed.

(* ================================================================== *)
(** ** Payments *)

Lemma inferred_direction_received state invoice :
  inferred_direction state invoice = received <->
  nodeId state = Some (TInvoice.payee_pub_key invoice).
Proof.
  unfold inferred_direction.
  destruct (nodeId state) as [n|]; [|split; discriminate].
  destruct (String.eqb_spec (TInvoice.payee_pub_key invoice) n) as [->|Hne].
  - split; reflexivity.
  - split; [discriminate | intros [= E]; congruence].
Qed.

Lemma inferred_direction_sent state invoice :
  inferred_direction state invoice = sent <->
  nodeId state <> Some (TInvoice.payee_pub_key invoice).
Proof.
  rewrite <- inferred_direction_received.
  destruct (inferred_direction state invoice); split; congruence.
Qed.

Lemma addPayment_get state payload :
  JsObject.get (TInvoice.payment_hash (TLightningPayment.invoice payload))
    (payments (addPayment payload state))
  = Some (TLightningPayment.mk (TLightningPayment.invoice payload)
            (inferred_direction state (TLightningPayment.invoice payload))).
Proof.
  unfold addPayment, inferred_direction. simpl.
  rewrite get_set, String.eqb_refl. reflexivity.
Qed.

(** What [updatePayment] does to the payment read under a key: nothing, or
    the payload is copied onto a payment with the payload's hash. *)
Lemma assign_first_payment_get payload o k :
  match JsObject.get k o with
  | None => JsObject.get k (assign_first_payment payload o) = None
  | Some p =>
      JsObject.get k (assign_first_payment payload o) = Some p
      \/ (TInvoice.payment_hash (TLightningPayment.invoice p)
          = TInvoice.payment_hash (TLightningPayment.invoice payload)
          /\ JsObject.get k (assign_first_payment payload o)
             = Some (Object_assign p payload))
  end.
Proof.
  induction o as [|[k0 p0] r IH]; simpl; [reflexivity|].
  destruct (String.eqb_spec
              (TInvoice.payment_hash (TLightningPayment.invoice p0))
              (TInvoice.payment_hash (TLightningPayment.invoice payload)))
    as [Hh|Hh]; simpl.
  - destruct (k0 =? k).
    + right. split; [exact Hh | reflexivity].
    + destruct (JsObject.get k r); [left|]; reflexivity.
  - destruct (k0 =? k); [left; reflexivity | exact IH].
Qed.

(** Where [updatePayment] writes: nowhere when no stored payment has the
    payload's hash, else onto the first payment, in enumeration order,
    whose invoice has it. *)
Lemma assign_first_payment_cases payload o :
  ((forall k p,
       In (k, p) o ->
       TInvoice.payment_hash (TLightningPayment.invoice p)
       <> TInvoice.payment_hash (TLightningPayment.invoice payload))
   /\ assign_first_payment payload o = o)
  \/ (exists before k p after,
         o = before ++ (k, p) :: after
         /\ (forall k' p',
                In (k', p') before ->
                TInvoice.payment_hash (TLightningPayment.invoice p')
                <> TInvoice.payment_hash (TLightningPayment.invoice payload))
         /\ TInvoice.payment_hash (TLightningPayment.invoice p)
            = TInvoice.payment_hash (TLightningPayment.invoice payload)
         /\ assign_first_payment payload o
            = before
              ++ (k, TLightningPayment.mk (TLightningPayment.invoice payload)
                       (TLightningPayment.type payload))
                 :: after).
Proof.
  induction o as [|[k0 p0] r IH]; simpl.
  - left. split; [intros k p []|reflexivity].
  - destruct (String.eqb_spec
                (TInvoice.payment_hash (TLightningPayment.invoice p0))
                (TInvoice.payment_hash (TLightningPayment.invoice payload)))
      as [Hh|Hh].
    + right. exists [], k0, p0, r. simpl.
      split; [reflexivity|]. split; [intros k' p' []|].
      split; [exact Hh | reflexivity].
    + destruct IH as [[Hnone Hsame]|(b & k & p & a & Heq & Hb & Hp & Hrun)].
      * left. split; [|rewrite Hsame; reflexivity].
        intros k p [[= <- <-]|Hin]; [exact Hh | exact (Hnone k p Hin)].
      * right. exists ((k0, p0) :: b), k, p, a. simpl.
        split; [rewrite Heq; reflexivity|]. split; [|split].
        -- intros k' p' [[= <- <-]|Hin]; [exact Hh | exact (Hb k' p' Hin)].
        -- exact Hp.
        -- rewrite Hrun. reflexivity.
Qed.

(** C5, as the code has it. [addPayment] stores, under the invoice's
    payment hash, a payment whose direction is [received] exactly when the
    invoice's [payee_pub_key] equals the store's node id and [sent] for
    every other value. [updatePayment] never recomputes a direction from
    the node id: its result does not depend on the node id; it copies the
    payload's properties, the direction tag among them, onto the first
    stored payment whose invoice has the payload's payment hash, and
    leaves every other payment, and the payments as a whole when none
    matches, as they were. *)
Theorem payment_direction_inferred_once :
  forall (state : LightningNodeModelType) (payload : TLightningPayment.t),
    (exists p,
        JsObject.get
          (TInvoice.payment_hash (TLightningPayment.invoice payload))
          (payments (addPayment payload state)) = Some p
        /\ TLightningPayment.invoice p = TLightningPayment.invoice payload
        /\ (TLightningPayment.type p = received <->
            nodeId state
            = Some (TInvoice.payee_pub_key (TLightningPayment.invoice payload)))
        /\ (TLightningPayment.type p = sent <->
            nodeId state
            <> Some (TInvoice.payee_pub_key
                       (TLightningPayment.invoice payload))))
    /\ (forall n,
           payments (updatePayment payload (assign_nodeId state n))
           = payments (updatePayment payload state))
    /\ (forall k,
           match JsObject.get k (payments state) with
           | None =>
               JsObject.get k (payments (updatePayment payload state)) = None
           | Some p =>
               exists p',
               JsObject.get k (payments (updatePayment payload state))
               = Some p'
               /\ (TLightningPayment.type p' = TLightningPayment.type p
                   \/ (TInvoice.payment_hash (TLightningPayment.invoice p)
                       = TInvoice.payment_hash
                           (TLightningPayment.invoice payload)
                       /\ TLightningPayment.type p'
                          = TLightningPayment.type payload))
           end)
    /\ (((forall k p,
             In (k, p) (payments state) ->
             TInvoice.payment_hash (TLightningPayment.invoice p)
             <> TInvoice.payment_hash (TLightningPayment.invoice payload))
         /\ payments (updatePayment payload state) = payments state)
        \/ (exists before k p after,
               payments state = before ++ (k, p) :: after
               /\ (forall k' p',
                      In (k', p') before ->
                      TInvoice.payment_hash (TLightningPayment.invoice p')
                      <> TInvoice.payment_hash
                           (TLightningPayment.invoice payload))
               /\ TInvoice.payment_hash (TLightningPayment.invoice p)
                  = TInvoice.payment_hash (TLightningPayment.invoice payload)
               /\ payments (updatePayment payload state)
                  = before
                    ++ (k, TLightningPayment.mk
                             (TLightningPayment.invoice payload)
                             (TLightningPayment.type payload))
                       :: after)).
Proof.
  intros state payload. split; [|split; [|split]];
    [| | |exact (assign_first_payment_cases payload (payments state))].
  - eexists. split; [apply addPayment_get|]. simpl.
    split; [reflexivity|].
    split; [apply inferred_direction_received
           | apply inferred_direction_sent].
  - intros n. reflexivity.
  - intros k. unfold updatePayment. simpl.
    pose proof (assign_first_payment_get payload (payments state) k) as H.
    destruct (JsObject.get k (payments state)) as [p|]; [|exact H].
    destruct H as [H|[Hh H]].
    + exists p. split; [exact H | left; reflexivity].
    + exists (Object_assign p payload). split; [exact H|].
      right. split; [exact Hh | reflexivity].
Qed.

(** C5, witness: the payment for [abc], created as received, is updated
    with a payload that carries [sent]. *)
Lemma payment_direction_inferred_once_witness :
  payments (updatePayment (TLightningPayment.mk invoice_abc sent) one_payment)
  = [("abc", TLightningPayment.mk invoice_abc sent)].
Proof.
  destruct (payment_direction_inferred_once one_payment
              (TLightningPayment.mk invoice_abc sent))
    as (_ & _ & _ & [[Hnone _]|(b & k & p & a & Heq & _ & _ & Hrun)]).
  - exfalso.
    apply (Hnone "abc" (TLightningPayment.mk invoice_abc received));
      [left; reflexivity | reflexivity].
  - rewrite Hrun. cbv in Heq. destruct b as [|e b].
    + injection Heq as <- _ <-. reflexivity.
    + injection Heq as _ Heq. destruct b; discriminate Heq.
Defined.

(** C5, counterexample. A payment created as [received] is [sent] after
    [updatePayment] with a payload for the same invoice that carries
    [sent]: the direction is not fixed at creation. *)
Lemma updatePayment_overwrites_direction :
  let state0 := setNodeId "node123" lightningModel in
  let state1 := addPayment (TLightningPayment.mk invoice_abc sent) state0 in
  let state2 :=
    updatePayment (TLightningPayment.mk invoice_abc sent) state1 in
  option_map TLightningPayment.type (JsObject.get "abc" (payments state1))
  = Some received
  /\ option_map TLightningPayment.type (JsObject.get "abc" (payments state2))
     = Some sent.
Proof. split; reflexivity. Qed.

(* ================================================================== *)
(** ** Channels *)

Lemma filter_untracked_nil (tracked l : list string) :
  (forall id, In id l -> In id tracked) ->
  filter (fun id => negb (Js.includes id tracked)) l = [].
Proof.
  induction l as [|x r IH]; simpl; intros H; [reflexivity|].
  assert (Hx : Js.includes x tracked = true)
    by (apply includes_In, H; left; reflexivity).
  rewrite Hx. simpl. apply IH. intros id Hid. apply H. right. exact Hid.
Qed.

Lemma get_rev_spread_again {V : Type} (o1 o2 : JsObject.t V) k :
  JsObject.get k (JsObject.spread (JsObject.spread o1 o2) o2)
  = JsObject.get k (JsObject.spread o1 o2).
Proof.
  rewrite (get_spread o2 (JsObject.spread o1 o2)), get_spread.
  destruct (JsObject.get k (rev o2)); reflexivity.
Qed.

(** C8, as the code has it. Applying a payload twice gives the open-channel
    id list that applying it once gives; the ids of the payload that are not
    tracked yet are appended in the payload's order behind the tracked
    ones; the list has no duplicates when neither the tracked list nor the
    payload's list had any; channel records are merged by id, the payload's
    record winning, and merging again changes no record. *)
Theorem updateChannels_idempotent_on_open_ids :
  forall (state : LightningNodeModelType) (payload : TChannelsPayload),
    let once := updateChannels payload state in
    let twice := updateChannels payload once in
    let newChannelIds := Js.or_else (payload_openChannelIds payload) [] in
    openChannelIds twice = openChannelIds once
    /\ openChannelIds once
       = openChannelIds state
         ++ filter (fun id => negb (Js.includes id (openChannelIds state)))
              newChannelIds
    /\ (NoDup (openChannelIds state) -> NoDup newChannelIds ->
        NoDup (openChannelIds once))
    /\ (forall k,
           JsObject.get k (channels once)
           = match JsObject.get k
                     (rev (Js.or_else (payload_channels payload)
                             JsObject.empty)) with
             | Some channel => Some channel
             | None => JsObject.get k (channels state)
             end)
    /\ (forall k,
           JsObject.get k (channels twice) = JsObject.get k (channels once)).
Proof.
  intros state payload once twice newChannelIds.
  assert (Honce : openChannelIds once
                  = openChannelIds state
                    ++ filter (fun id =>
                                 negb (Js.includes id (openChannelIds state)))
                         newChannelIds) by reflexivity.
  split; [|split; [exact Honce|split; [|split]]].
  - change (openChannelIds twice)
      with (openChannelIds once
            ++ filter (fun id => negb (Js.includes id (openChannelIds once)))
                 newChannelIds).
    rewrite filter_untracked_nil; [apply app_nil_r|].
    intros id Hid. rewrite Honce. apply in_or_app.
    destruct (Js.includes id (openChannelIds state)) eqn:E.
    + left. apply includes_In, E.
    + right. apply filter_In. split; [exact Hid|]. rewrite E. reflexivity.
  - intros Hs Hn. rewrite Honce.
    apply NoDup_app; [exact Hs | apply NoDup_filter, Hn|].
    intros id Hin Hin'. apply filter_In in Hin'. destruct Hin' as [_ Hf].
    apply includes_In in Hin. rewrite Hin in Hf. discriminate.
  - intros k. subst once. unfold updateChannels. simpl. apply get_spread.
  - intros k. subst twice once. unfold updateChannels. simpl.
    apply get_rev_spread_again.
Qed.

(** C8, witness: two tracked ids, a payload that repeats one of them. *)
Lemma updateChannels_idempotent_on_open_ids_witness :
  let state := assign_openChannelIds lightningModel ["c1"; "c2"] in
  let payload := mkChannelsPayload None (Some ["c2"; "c3"]) in
  NoDup (openChannelIds (updateChannels payload state)).
Proof.
  intros state payload.
  destruct (updateChannels_idempotent_on_open_ids state payload)
    as (_ & _ & H & _).
  apply H.
  - repeat constructor; simpl; intuition discriminate.
  - repeat constructor; simpl; intuition discriminate.
Defined.

(** C8, counterexample. A payload that lists an untracked id twice has it
    appended twice: the merge does produce duplicates. *)
Lemma updateChannels_keeps_payload_duplicates :
  let payload := mkChannelsPayload None (Some ["c1"; "c1"]) in
  openChannelIds (updateChannels payload lightningModel) = ["c1"; "c1"]
  /\ ~ NoDup (openChannelIds (updateChannels payload lightningModel)).
Proof.
  split; [reflexivity|].
  simpl. intros H. inversion H as [|x l Hnin _]; subst.
  apply Hnin. left. reflexivity.
Qed.

(* ================================================================== *)
(** ** Contacts *)

Lemma nth_error_map_some {A B : Type} (f : A -> B) l i x :
  nth_error l i = Some x -> nth_error (map f l) i = Some (f x).
Proof.
  revert i. induction l as [|y r IH]; intros [|i]; simpl;
    try discriminate.
  - intros [= ->]. reflexivity.
  - apply IH.
Qed.

Lemma Forall2_nth_error_l {A B : Type} (R : A -> B -> Prop) l l' :
  Forall2 R l l' ->
  forall i x, nth_error l i = Some x ->
              exists y, nth_error l' i = Some y /\ R x y.
Proof.
  induction 1 as [|a b r r' Hab _ IH]; intros [|i] x; simpl;
    try discriminate.
  - intros [= <-]. exists b. split; [reflexivity | exact Hab].
  - apply IH.
Qed.

Lemma Forall2_In_r {A B : Type} (R : A -> B -> Prop) l l' :
  Forall2 R l l' ->
  forall y, In y l' -> exists x, In x l /\ R x y.
Proof.
  induction 1 as [|a b r r' Hab _ IH]; simpl; intros y; [tauto|].
  intros [<-|Hy].
  - exists a. split; [left; reflexivity | exact Hab].
  - destruct (IH y Hy) as (x & Hx & Hr). exists x. split; [right|]; assumption.
Qed.

Lemma map_throwing_Forall2 {A B : Type} (f : A -> option B) l :
  forall l', map_throwing f l = Some l' ->
             Forall2 (fun x y => f x = Some y) l l'.
Proof.
  induction l as [|x r IH]; simpl; intros l'.
  - intros [= <-]. constructor.
  - destruct (f x) as [y|] eqn:Hx; [|discriminate].
    destruct (map_throwing f r) as [ys|]; [|discriminate].
    intros [= <-]. constructor; [exact Hx | apply IH; reflexivity].
Qed.

Lemma map_throwing_total {A B : Type} (f : A -> option B) l :
  (forall x, In x l -> f x <> None) ->
  exists l', map_throwing f l = Some l'.
Proof.
  induction l as [|x r IH]; simpl; intros H.
  - exists []. reflexivity.
  - destruct (f x) as [y|] eqn:Hx.
    + destruct IH as [ys Hys]; [intros z Hz; apply H; right; exact Hz|].
      rewrite Hys. exists (y :: ys). reflexivity.
    + exfalso. apply (H x); [left; reflexivity | exact Hx].
Qed.

Lemma Forall2_compose {A B C : Type} (R : A -> B -> Prop) (S : B -> C -> Prop)
  (T : A -> C -> Prop) l1 l2 :
  (forall a b c, R a b -> S b c -> T a c) ->
  Forall2 R l1 l2 -> forall l3, Forall2 S l2 l3 -> Forall2 T l1 l3.
Proof.
  intros HT. induction 1 as [|a b r r' Hab _ IH]; intros l3 H3;
    inversion H3; subst; constructor; eauto.
Qed.

Lemma filter_idem {A : Type} (f : A -> bool) l :
  filter f (filter f l) = filter f l.
Proof.
  induction l as [|x r IH]; simpl; [reflexivity|].
  destruct (f x) eqn:E; simpl; [rewrite E, IH|]; auto.
Qed.

Lemma deleteContactAddress_Forall2 payload state state' :
  deleteContactAddress payload state = Some state' ->
  Forall2 (address_deleted payload) (contacts state) (contacts state').
Proof.
  unfold deleteContactAddress.
  destruct (map_throwing _ (contacts state)) as [contacts1|] eqn:H1;
    [|discriminate].
  destruct (map_throwing _ contacts1) as [contacts2|] eqn:H2;
    [|discriminate].
  intros [= <-]. simpl.
  apply map_throwing_Forall2 in H1. apply map_throwing_Forall2 in H2.
  eapply Forall2_compose; [|exact H1|exact H2].
  intros a b c Hab Hbc. simpl in Hab, Hbc.
  unfold filter_identifiers in Hab, Hbc. unfold address_deleted.
  destruct (TContact.id a =? del_contactId payload) eqn:Eid.
  - destruct (TContact.identifiers a) as [ids|] eqn:Ea; [|discriminate].
    injection Hab as <-. simpl in Hbc. injection Hbc as <-.
    exists ids. simpl. rewrite filter_idem. repeat split; reflexivity.
  - injection Hab as <-.
    destruct (TContact.identifiers a) as [ids|] eqn:Ea; [|discriminate].
    injection Hbc as <-. exists ids. simpl. rewrite Ea.
    repeat split; reflexivity.
Qed.

Lemma deleteContactAddress_total payload state :
  (forall c, In c (contacts state) -> TContact.identifiers c <> None) ->
  exists state', deleteContactAddress payload state = Some state'.
Proof.
  intros Hall. unfold deleteContactAddress.
  destruct (map_throwing_total
              (fun contact =>
                 if TContact.id contact =? del_contactId payload then
                   match filter_identifiers (del_addressId payload) contact
                   with
                   | Some updatedIdentifiers =>
                       Some (TContact.with_identifiers updatedIdentifiers
                               contact)
                   | None => None
                   end
                 else Some contact)
              (contacts state)) as [contacts1 H1].
  { intros c Hc. specialize (Hall c Hc). unfold filter_identifiers.
    destruct (TContact.id c =? del_contactId payload); [|discriminate].
    destruct (TContact.identifiers c); [discriminate | congruence]. }
  rewrite H1.
  destruct (map_throwing_total
              (fun contact =>
                 match filter_identifiers (del_addressId payload) contact
                 with
                 | Some updatedIdentifiers =>
                     Some (TContact.with_items updatedIdentifiers contact)
                 | None => None
                 end)
              contacts1) as [contacts2 H2].
  { intros c Hc.
    apply map_throwing_Forall2 in H1.
    destruct (Forall2_In_r _ _ _ H1 c Hc) as (c0 & Hc0 & Hf).
    simpl in Hf. specialize (Hall c0 Hc0). unfold filter_identifiers in *.
    destruct (TContact.id c0 =? del_contactId payload).
    - destruct (TContact.identifiers c0); [|congruence].
      injection Hf as <-. simpl. discriminate.
    - injection Hf as <-. destruct (TContact.identifiers c0);
        [discriminate | congruence]. }
  rewrite H2. eauto.
Qed.

(** A contact saved without addresses has no [identifiers]: the pass over
    all contacts throws on it, and the store keeps its state. *)
Example deleteContactAddress_throws_without_identifiers :
  let state := addContact contact_carol two_contacts in
  let payload := mkDeleteContactAddress "c1" "a1" in
  deleteContactAddress payload state = None
  /\ dispatch (DeleteContactAddress payload) state = state.
Proof. split; reflexivity. Qed.

(** What [deleteContactAddress] does when it completes, which it does when
    every contact has an identifier list: the contacts keep their positions
    and ids; a contact whose id is [contactId] loses the identifiers whose
    id is [addressId]; a contact with another id keeps its identifier list
    as it was; and every contact gets, as [items], the identifiers it had
    without those whose id is [addressId]. *)
Theorem deleteContactAddress_only_named_contact :
  forall (state : LightningNodeModelType) (payload : TDeleteContactAddress),
    (forall c, In c (contacts state) -> TContact.identifiers c <> None) ->
    exists state',
      deleteContactAddress payload state = Some state'
      /\ length (contacts state') = length (contacts state)
      /\ (forall i contact,
             nth_error (contacts state) i = Some contact ->
             exists contact',
               nth_error (contacts state') i = Some contact'
               /\ TContact.id contact' = TContact.id contact
               /\ (TContact.id contact = del_contactId payload ->
                   TContact.identifiers contact'
                   = option_map
                       (filter (fun identity =>
                                  negb (TIdentifier.id identity
                                        =? del_addressId payload)))
                       (TContact.identifiers contact)
                   /\ forall identity,
                       In identity
                         (Js.or_else (TContact.identifiers contact') []) ->
                       TIdentifier.id identity <> del_addressId payload)
               /\ (TContact.id contact <> del_contactId payload ->
                   TContact.identifiers contact'
                   = TContact.identifiers contact)
               /\ TContact.items contact'
                  = option_map
                      (filter (fun identity =>
                                 negb (TIdentifier.id identity
                                       =? del_addressId payload)))
                      (TContact.identifiers contact)).
Proof.
  intros state payload Hall.
  destruct (deleteContactAddress_total payload state Hall) as [state' Hd].
  exists state'. split; [exact Hd|].
  pose proof (deleteContactAddress_Forall2 _ _ _ Hd) as HF.
  split; [symmetry; eapply Forall2_length; exact HF|].
  intros i contact Hi.
  destruct (Forall2_nth_error_l _ _ _ HF i contact Hi)
    as (contact' & Hi' & ids & Hids & Hid & _ & _ & Hitems & Hids').
  exists contact'. split; [exact Hi'|]. split; [exact Hid|].
  split; [|split].
  - intros Heq. apply String.eqb_eq in Heq. rewrite Heq in Hids'.
    rewrite Hids', Hids. simpl. split; [reflexivity|].
    intros identity Hin. apply filter_In in Hin. destruct Hin as [_ Hne].
    apply negb_true_iff, String.eqb_neq in Hne. exact Hne.
  - intros Hne. apply String.eqb_neq in Hne. rewrite Hne in Hids'.
    congruence.
  - rewrite Hitems, Hids. reflexivity.
Qed.

(** Deleting address [a1] of contact [c1] completes. *)
Lemma deleteContactAddress_only_named_contact_witness :
  exists state',
    deleteContactAddress (mkDeleteContactAddress "c1" "a1") two_contacts
    = Some state'
    /\ length (contacts state') = 2%nat.
Proof.
  destruct (deleteContactAddress_only_named_contact two_contacts
              (mkDeleteContactAddress "c1" "a1")) as (state' & H & Hl & _).
  - simpl. intros c [<-|[<-|[]]]; discriminate.
  - exists state'. split; [exact H | exact Hl].
Defined.

(** C10, the failing input. Two contacts hold an identifier with id [a1].
    After [deleteContactAddress] for contact [c1] and address [a1] the
    second pass has filtered the identifiers of both contacts, but it has
    stored the filtered lists as [items]: contact [c2] still has the
    identifier among its [identifiers]. *)
Theorem deleteContactAddress_spares_other_contacts :
  exists state',
    deleteContactAddress (mkDeleteContactAddress "c1" "a1") two_contacts
    = Some state'
    /\ map TContact.id (contacts state') = ["c1"; "c2"]
    /\ map TContact.identifiers (contacts state')
       = [Some []; Some [address_a1]]
    /\ map TContact.items (contacts state') = [Some []; Some []]
    /\ exists contact identity,
         In contact (contacts state')
         /\ TContact.id contact <> "c1"
         /\ In identity (Js.or_else (TContact.identifiers contact) [])
         /\ TIdentifier.id identity = "a1".
Proof.
  eexists. split; [reflexivity|]. split; [reflexivity|].
  split; [reflexivity|]. split; [reflexivity|].
  exists (TContact.with_items [] contact_bob), address_a1. simpl.
  split; [right; left; reflexivity|].
  split; [discriminate|]. split; [left|]; reflexivity.
Qed.




(** *** Uniqueness of identifier ids *)

Lemma NoDup_map_filter {A B : Type} (f : A -> B) (p : A -> bool) l :
  NoDup (map f l) -> NoDup (map f (filter p l)).
Proof.
  induction l as [|x r IH]; simpl; intros H; [constructor|].
  inversion H as [|y ys Hnin Hnd]; subst.
  destruct (p x); simpl; [|apply IH, Hnd].
  constructor; [|apply IH, Hnd].
  intros Hin. apply Hnin. apply in_map_iff in Hin.
  destruct Hin as (z & Hz & Hin). apply filter_In in Hin.
  apply in_map_iff. exists z. tauto.
Qed.

Lemma splice_first_incl {A : Type} (test : A -> bool) l x :
  In x (splice_first test l) -> In x l.
Proof.
  induction l as [|y r IH]; simpl; [tauto|].
  destruct (test y); simpl; [tauto|]. intros [H|H]; auto.
Qed.

Lemma addContact_keeps_unique state payload :
  unique_identifier_ids state ->
  NoDup (identifier_ids payload) ->
  unique_identifier_ids (addContact payload state).
Proof.
  unfold unique_identifier_ids, addContact. simpl. intros Hs Hp.
  apply Forall_app. split; [exact Hs | constructor; [exact Hp | constructor]].
Qed.

Lemma updateContact_keeps_unique state payload :
  unique_identifier_ids state ->
  supplies_fresh_ids state (UpdateContact payload) ->
  unique_identifier_ids (updateContact payload state).
Proof.
  unfold unique_identifier_ids, updateContact. simpl. intros Hs Hfresh.
  destruct (Js.truthy_string (contactId payload)); [|exact Hs]. simpl.
  rewrite Forall_forall in *. intros c' Hc'.
  apply in_map_iff in Hc'. destruct Hc' as (c & <- & Hc).
  destruct (String.eqb_spec (TContact.id c) (contactId payload)) as [Hid|Hid];
    [|apply Hs, Hc].
  specialize (Hfresh c Hc Hid). unfold identifier_ids in *. simpl.
  destruct (TContact.identifiers (updatedContact payload)) as [ids|]; simpl in *.
  - rewrite map_app. exact Hfresh.
  - rewrite app_nil_r in Hfresh. exact Hfresh.
Qed.

Lemma deleteContact_keeps_unique state payload :
  unique_identifier_ids state ->
  unique_identifier_ids (deleteContact payload state).
Proof.
  unfold unique_identifier_ids, deleteContact. simpl.
  rewrite !Forall_forall. intros Hs c Hc.
  apply Hs. eapply splice_first_incl, Hc.
Qed.

Lemma deleteContactAddress_keeps_unique state payload state' :
  deleteContactAddress payload state = Some state' ->
  unique_identifier_ids state ->
  unique_identifier_ids state'.
Proof.
  intros Hd. apply deleteContactAddress_Forall2 in Hd.
  unfold unique_identifier_ids. rewrite !Forall_forall. intros Hs c' Hc'.
  destruct (Forall2_In_r _ _ _ Hd c' Hc')
    as (c & Hc & ids & Hids & _ & _ & _ & _ & Hids').
  specialize (Hs c Hc). unfold identifier_ids in *.
  rewrite Hids in Hs. rewrite Hids'. simpl in Hs.
  destruct (TContact.id c =? del_contactId payload); simpl;
    [apply NoDup_map_filter|]; exact Hs.
Qed.

Lemma dispatch_keeps_unique a state :
  unique_identifier_ids state ->
  supplies_fresh_ids state a ->
  unique_identifier_ids (dispatch a state).
Proof.
  destruct a as [p|p|p|p]; simpl; intros Hs Hf.
  - apply addContact_keeps_unique; assumption.
  - apply updateContact_keeps_unique; assumption.
  - apply deleteContact_keeps_unique; assumption.
  - destruct (deleteContactAddress p state) as [state'|] eqn:Hd;
      [eapply deleteContactAddress_keeps_unique; eassumption | exact Hs].
Qed.

(** C9, as the code has it. The store does not test identifier ids; the
    identifiers of every contact have pairwise distinct ids in each state
    reached from the initial one by contact actions whose payloads bring
    fresh ids: an added contact with distinct identifier ids, an update
    whose identifier ids are distinct and differ from those of the contact
    it is merged into. The two deletions need nothing. *)
Theorem contact_identifier_ids_unique :
  forall state : LightningNodeModelType,
    reachable_fresh state -> unique_identifier_ids state.
Proof.
  induction 1 as [|a state _ IH Hfresh].
  - constructor.
  - apply dispatch_keeps_unique; assumption.
Qed.

(** C9, witness: Alice and Bob are added, then Alice gets a second
    address. *)
Lemma contact_identifier_ids_unique_witness :
  unique_identifier_ids (dispatch add_address_a2 two_contacts).
Proof.
  apply contact_identifier_ids_unique.
  apply reachable_fresh_step.
  - apply (reachable_fresh_step (AddContact contact_bob)).
    + apply (reachable_fresh_step (AddContact contact_alice)).
      * apply reachable_fresh_init.
      * simpl. repeat constructor. simpl. tauto.
    + simpl. repeat constructor. simpl. tauto.
  - simpl. intros c [<-|[<-|[]]]; simpl; intros Hid; [|discriminate].
    repeat constructor; simpl; intuition discriminate.
Defined.

(** C9, counterexample. A contact is added, then the same address payload is
    merged into it twice, as happens when the "add address" sheet saves
    twice with the id it generated on mount: the contact holds two
    identifiers with id [a1]. *)
Lemma contact_identifier_ids_can_repeat :
  let state :=
    dispatch add_address_a1_to_carol
      (dispatch add_address_a1_to_carol
         (dispatch (AddContact contact_carol) lightningModel)) in
  reachable state
  /\ map identifier_ids (contacts state) = [["a1"; "a1"]]
  /\ ~ unique_identifier_ids state.
Proof.
  split; [repeat apply reachable_step; apply reachable_init|].
  split; [reflexivity|].
  unfold unique_identifier_ids. simpl. intros H.
  inversion H as [|c l Hnd _]; subst.
  inversion Hnd as [|x xs Hnin _]; subst.
  apply Hnin. left. reflexivity.
Qed.

(* ================================================================== *)
(** ** The synchronisation loop *)

Lemma emit_emit_all e w : emit e w = emit_all [e] w.
Proof. reflexivity. Qed.

Lemma emit_all_emit_all e1 e2 w :
  emit_all e2 (emit_all e1 w) = emit_all (e1 ++ e2) w.
Proof. unfold emit_all. simpl. rewrite app_assoc. reflexivity. Qed.

Lemma emit_all_nil w : emit_all [] w = w.
Proof. destruct w. unfold emit_all. simpl. rewrite app_nil_r. reflexivity. Qed.

Lemma sync_attempts_emit e w :
  Ldk.sync_attempts (emit e w)
  = (Ldk.sync_attempts w + if Ldk.is_refreshLdk e then 1 else 0)%nat.
Proof.
  unfold Ldk.sync_attempts, emit. simpl.
  rewrite filter_app, length_app. simpl.
  destruct (Ldk.is_refreshLdk e); reflexivity.
Qed.

(** Whatever the sync attempts resolve to, the loop goes on: a [Result] is
    an object, and [!syncRes] is false for every object. After any number
    of iterations the loop has made that many attempts, the guard flag is as
    it was, and the promise has not resolved. *)
Lemma keepLdkSynced_loop_goes_on env frequency network :
  forall fuel w,
    exists w',
      Ldk.keepLdkSynced_loop env fuel frequency network "" w = Ldk.Looping w'
      /\ Ldk.sync_attempts w' = (Ldk.sync_attempts w + fuel)%nat
      /\ LDKIsStayingSynced w' = LDKIsStayingSynced w
      /\ store w' = store w.
Proof.
  induction fuel as [|fuel IH]; intros w; simpl.
  - exists w. repeat split. lia.
  - destruct (IH (Ldk.sleep frequency
                    (emit (Ev_refreshLdk
                             (Ldk.network_or_selected env (Some network))) w)))
      as (w' & Hrun & Hn & Hflag & Hstore).
    exists w'. split; [exact Hrun|].
    unfold Ldk.sleep in Hn. rewrite !sync_attempts_emit in Hn. simpl in Hn.
    split; [lia|]. split; assumption.
Qed.

Lemma keepLdkSynced_goes_on env fuel frequency selectedNetwork w :
  LDKIsStayingSynced w = false ->
  exists w',
    Ldk.keepLdkSynced env fuel frequency selectedNetwork w = Ldk.Looping w'
    /\ Ldk.sync_attempts w' = (Ldk.sync_attempts w + fuel)%nat
    /\ LDKIsStayingSynced w' = true
    /\ store w' = store w.
Proof.
  intros Hflag. unfold Ldk.keepLdkSynced. rewrite Hflag.
  destruct (keepLdkSynced_loop_goes_on env
              (Js.or_else frequency 120000%Z)
              (Ldk.network_or_selected env selectedNetwork) fuel
              (with_LDKIsStayingSynced true w))
    as (w' & Hrun & Hn & Hf & Hs).
  exists w'. repeat split; assumption.
Qed.

Lemma keepLdkSynced_guarded env fuel frequency selectedNetwork w :
  LDKIsStayingSynced w = true ->
  Ldk.keepLdkSynced env fuel frequency selectedNetwork w = Ldk.Resolved w.
Proof. intros H. unfold Ldk.keepLdkSynced. rewrite H. reflexivity. Qed.

(** The run of that scenario over four iterations: the failed third
    attempt is followed by a sleep and a fourth attempt. *)
Example keepLdkSynced_four_iterations :
  Ldk.keepLdkSynced env_third_sync_fails 4 (Some 1000%Z) None initial_world
  = Ldk.Looping
      (with_LDKIsStayingSynced true
         (emit_all
            [Ev_refreshLdk "bitcoinTestnet"; Ev_sleep 1000;
             Ev_refreshLdk "bitcoinTestnet"; Ev_sleep 1000;
             Ev_refreshLdk "bitcoinTestnet"; Ev_sleep 1000;
             Ev_refreshLdk "bitcoinTestnet"; Ev_sleep 1000]
            initial_world)).
Proof. reflexivity. Qed.

(** C1, what the code does. [keepLdkSynced(1000)] is started in the initial
    world and the third call of [refreshLdk] returns a failure. However far
    the run is followed, it has not stopped: after [fuel] iterations it has
    made [fuel] sync attempts, more than three for [fuel > 3], the promise
    has not resolved and the guard flag is still set, so that a further
    [keepLdkSynced] returns at once, without a sync attempt. *)
Theorem keepLdkSynced_survives_failed_sync :
  map (fun n => isErr (refreshLdk_result env_third_sync_fails n)) [0; 1; 2]%nat
  = [false; false; true]
  /\ forall fuel : nat,
      exists w',
        Ldk.keepLdkSynced env_third_sync_fails fuel (Some 1000%Z) None
          initial_world = Ldk.Looping w'
        /\ Ldk.sync_attempts w' = fuel
        /\ LDKIsStayingSynced w' = true
        /\ forall fuel' frequency selectedNetwork,
            Ldk.keepLdkSynced env_third_sync_fails fuel' frequency
              selectedNetwork w' = Ldk.Resolved w'.
Proof.
  split; [reflexivity|]. intros fuel.
  destruct (keepLdkSynced_goes_on env_third_sync_fails fuel (Some 1000%Z)
              None initial_world eq_refl) as (w' & Hrun & Hn & Hflag & _).
  exists w'. split; [exact Hrun|]. split; [exact Hn|]. split; [exact Hflag|].
  intros fuel' frequency selectedNetwork.
  apply keepLdkSynced_guarded, Hflag.
Qed.

(* ================================================================== *)
(** ** Setup *)

(** C4, as the code has it. When the reset has returned and loading the
    account fails with [message], [setupLdk] returns the failure result
    carrying exactly [message], with no tag or prefix that names the step;
    the only calls it has made are the reset and the load of the account,
    so the node engine was not started; the store is the one from before
    the call, its node id included; the module's flags are untouched. *)
Theorem setupLdk_account_load_failure :
  forall (env : Env) (selectedNetwork : option string)
         (shouldRefreshLdk : bool) (w : World) (r : Result string)
         (message : string),
    ldk_reset env = Returned r ->
    account_load_error (getLdkAccount env) = Some message ->
    let w' := emit_all [Ev_ldk_reset; Ev_getLdkAccount] w in
    Ldk.setupLdk env selectedNetwork shouldRefreshLdk w
    = (Returned (err message), w')
    /\ lm_start_calls (trace w') = lm_start_calls (trace w)
    /\ store w' = store w
    /\ nodeId (store w') = nodeId (store w)
    /\ (nodeId (store w) = None -> nodeId (store w') = None).
Proof.
  intros env selectedNetwork shouldRefreshLdk w r message Hreset Hacc w'.
  split; [|split; [|split; [reflexivity|split; [reflexivity|auto]]]].
  - unfold Ldk.setupLdk, try_catch, bind, Ldk.resetLdk, call.
    rewrite Hreset. unfold account_load_error in Hacc.
    destruct (getLdkAccount env) as [[account|m]|e]; try discriminate;
      injection Hacc as ->; unfold ret, w'; rewrite !emit_emit_all,
      emit_all_emit_all; reflexivity.
  - subst w'. unfold lm_start_calls, emit_all. simpl.
    rewrite filter_app, length_app. simpl. lia.
Qed.

(** C4, witness: setup in the initial world, without an account. *)
Lemma setupLdk_account_load_failure_witness :
  Ldk.setupLdk env_no_account None true initial_world
  = (Returned (err "Unable to retrieve account"),
     emit_all [Ev_ldk_reset; Ev_getLdkAccount] initial_world)
  /\ nodeId (store (emit_all [Ev_ldk_reset; Ev_getLdkAccount] initial_world))
     = None.
Proof.
  destruct (setupLdk_account_load_failure env_no_account None true
              initial_world (ok "") "Unable to retrieve account"
              eq_refl eq_refl) as (Hrun & _ & _ & _ & Hnone).
  split; [exact Hrun | apply Hnone; reflexivity].
Defined.

(** C4, counterexample. A setup whose account load fails and a setup whose
    account loads but whose node id query fails with the same message
    return the same result: nothing in it marks an account-load error. *)
Lemma setupLdk_failure_names_no_step :
  getLdkAccount env_no_account = Returned (err "Unable to retrieve account")
  /\ getLdkAccount env_node_id_refused
     = Returned (ok (TAccount.mk "wallet0" "seed"))
  /\ fst (Ldk.setupLdk env_no_account None true initial_world)
     = Returned (err "Unable to retrieve account")
  /\ fst (Ldk.setupLdk env_node_id_refused None true initial_world)
     = fst (Ldk.setupLdk env_no_account None true initial_world).
Proof. repeat split. Qed.

(** With an account, the same setup starts the engine and records the node
    id: the failure path above is not the only one the model has. *)
Example setupLdk_success_records_node_id :
  let run := Ldk.setupLdk env_third_sync_fails None false initial_world in
  fst run = Returned (ok "LDK NodeID: node123")
  /\ nodeId (store (snd run)) = Some "node123"
  /\ lm_start_calls (trace (snd run)) = 1%nat.
Proof. repeat split. Qed.

(* ================================================================== *)
(** ** Claimed payments *)





Example handlePaymentSubscription_abc_received :
  let run :=
    Ldk.handlePaymentSubscription env_no_account
      (TChannelManagerClaim.mk "abc" 1000) None world_with_invoice_abc in
  option_map TLightningPayment.type
    (JsObject.get "abc" (payments (store (snd run)))) = Some received
  /\ trace (snd run) = [Ev_refreshLdk "bitcoinTestnet"].
Proof. split; reflexivity. Qed.

(* ================================================================== *)
(** ** Watched outputs *)

Lemma find_app {A : Type} (f : A -> bool) l1 l2 :
  find f (l1 ++ l2)
  = match find f l1 with
    | Some x => Some x
    | None => find f l2
    end.
Proof.
  induction l1 as [|x r IH]; simpl; [reflexivity|].
  destruct (f x); [reflexivity | exact IH].
Qed.

Lemma find_none_iff {A : Type} (f : A -> bool) l :
  find f l = None <-> forall x, In x l -> f x = false.
Proof.
  split; [apply find_none|].
  induction l as [|x r IH]; simpl; intros H; [reflexivity|].
  rewrite (H x (or_introl eq_refl)). apply IH. intros y Hy. apply H. auto.
Qed.

(** The inner loop reports the first unseen entry of a history, if any. *)
Lemma history_loop_spec env history w :
  Ldk.history_loop env (map TWatchTx.txid (lm_watchTxs env)) history w
  = match find (unseen env) history with
    | Some data =>
        (Returned true, emit (Ev_setTxConfirmed (confirmation_of env data)) w)
    | None => (Returned false, w)
    end.
Proof.
  induction history as [|data rest IH]; simpl; [reflexivity|].
  unfold unseen at 1.
  destruct (negb (Js.includes (THistory.txid data)
                    (map TWatchTx.txid (lm_watchTxs env)))); [reflexivity|].
  exact IH.
Qed.

(** The outer loop, started with a list of checked scripts none of which
    has an unseen entry. *)
Lemma watch_loop_spec env :
  forall watchTxs checked w,
    (forall s, In s checked ->
               find (unseen env) (getScriptPubKeyHistory env s) = None) ->
    exists fetched,
      NoDup fetched
      /\ (forall s, In s fetched ->
                    ~ In s checked
                    /\ In s (map TWatchTx.script_pubkey watchTxs))
      /\ Ldk.watch_loop env (map TWatchTx.txid (lm_watchTxs env)) checked
           watchTxs w
         = match
             find (unseen env)
               (flat_map (fun watchTx =>
                            getScriptPubKeyHistory env
                              (TWatchTx.script_pubkey watchTx)) watchTxs)
           with
           | Some data =>
               (Returned true,
                emit_all (map Ev_getScriptPubKeyHistory fetched
                          ++ [Ev_setTxConfirmed (confirmation_of env data)])
                  w)
           | None =>
               (Returned false,
                emit_all (map Ev_getScriptPubKeyHistory fetched) w)
           end.
Proof.
  induction watchTxs as [|watchTx rest IH]; intros checked w Hchecked.
  - exists []. simpl. rewrite emit_all_nil.
    split; [constructor|]. split; [intros s []|reflexivity].
  - simpl. rewrite find_app.
    destruct (Js.includes (TWatchTx.script_pubkey watchTx) checked) eqn:Hinc;
      simpl.
    + apply includes_In in Hinc. rewrite (Hchecked _ Hinc).
      destruct (IH checked w Hchecked) as (fetched & Hnd & Hsub & Hrun).
      exists fetched. split; [exact Hnd|]. split; [|exact Hrun].
      intros s Hs. destruct (Hsub s Hs). auto.
    + apply includes_false_In in Hinc.
      unfold bind at 1, call. unfold bind at 1.
      rewrite history_loop_spec.
      destruct (find (unseen env)
                  (getScriptPubKeyHistory env (TWatchTx.script_pubkey watchTx)))
        as [data|] eqn:Hfind.
      * exists [TWatchTx.script_pubkey watchTx]. simpl.
        split; [repeat constructor; simpl; tauto|].
        split; [intros s [<-|[]]; auto|].
        unfold ret. rewrite !emit_emit_all, emit_all_emit_all. reflexivity.
      * destruct (IH (checked ++ [TWatchTx.script_pubkey watchTx])
                    (emit (Ev_getScriptPubKeyHistory
                             (TWatchTx.script_pubkey watchTx)) w))
          as (fetched & Hnd & Hsub & Hrun).
        { intros s Hs. apply in_app_or in Hs.
          destruct Hs as [Hs|[<-|[]]]; [apply Hchecked, Hs | exact Hfind]. }
        exists (TWatchTx.script_pubkey watchTx :: fetched).
        split; [|split].
        -- constructor; [|exact Hnd]. intros Hin.
           destruct (Hsub _ Hin) as [Hnot _]. apply Hnot.
           apply in_or_app. right. left. reflexivity.
        -- intros s [<-|Hs]; [split; [exact Hinc | left; reflexivity]|].
           destruct (Hsub s Hs) as [Hnot Hin]. split; [|right; exact Hin].
           intros Hc. apply Hnot. apply in_or_app. left. exact Hc.
        -- rewrite Hrun. rewrite emit_emit_all.
           destruct (find (unseen env) _); rewrite emit_all_emit_all;
             reflexivity.
Qed.

Lemma setTxConfirmed_calls_app t1 t2 :
  setTxConfirmed_calls (t1 ++ t2)
  = setTxConfirmed_calls t1 ++ setTxConfirmed_calls t2.
Proof. apply flat_map_app. Qed.

Lemma setTxConfirmed_calls_fetches l :
  setTxConfirmed_calls (map Ev_getScriptPubKeyHistory l) = [].
Proof. induction l; simpl; auto. Qed.

Lemma unseen_true_iff env data :
  unseen env data = true <->
  ~ In (THistory.txid data) (map TWatchTx.txid (lm_watchTxs env)).
Proof.
  unfold unseen. rewrite negb_true_iff. apply includes_false_In.
Qed.






(** The run of that scenario: two fetches, then one confirmation, at block
    height 105 - 4 + 1 and position 0. *)
Example checkWatchTxs_two_scripts_run :
  Ldk.checkWatchTxs env_two_scripts initial_world
  = (Returned true,
     emit_all
       [Ev_getScriptPubKeyHistory "s1";
        Ev_getScriptPubKeyHistory "s2";
        Ev_setTxConfirmed
          (TSetTxConfirmedReq.mk "header102" 102 [("rawtx9", 0%Z)])]
       initial_world).
Proof. reflexivity. Qed.

(** A script listed twice is fetched once; with nothing unseen the pass
    is idle. *)
Example checkWatchTxs_idle_run :
  let env :=
    mkEnv "bitcoinTestnet" (Returned (ok "")) (Returned (err ""))
      (Returned (ok "")) (fun _ _ => Returned (ok "")) (Returned (ok ""))
      (Returned (err "")) (fun _ => ok "")
      [TWatchTx.mk "tx1" "s1"; TWatchTx.mk "tx2" "s1"]
      (fun _ => [THistory.mk "tx1" 100; THistory.mk "tx2" 101])
      (fun _ => Threw "no connection") 0%Z (fun _ => Threw "no connection") in
  Ldk.checkWatchTxs env initial_world
  = (Returned false, emit_all [Ev_getScriptPubKeyHistory "s1"] initial_world).
Proof. reflexivity. Qed.


(* ================================================================== *)
(** ** More about invoices *)

Lemma assign_invoices_same state :
  assign_invoices state (invoices state) = state.
Proof. destruct state. reflexivity. Qed.

Lemma assign_contacts_same state :
  assign_contacts state (contacts state) = state.
Proof. destruct state. reflexivity. Qed.

Lemma assign_payments_same state :
  assign_payments state (payments state) = state.
Proof. destruct state. reflexivity. Qed.

Lemma splice_first_absent {A : Type} (test : A -> bool) l :
  (forall x, In x l -> test x = false) -> splice_first test l = l.
Proof.
  induction l as [|x r IH]; simpl; intros H; [reflexivity|].
  rewrite (H x (or_introl eq_refl)). f_equal. apply IH.
  intros y Hy. apply H. right. exact Hy.
Qed.

(** [splice_first] takes out the first element that passes the test and
    nothing else. *)
Lemma splice_first_present {A : Type} (test : A -> bool) l x :
  In x l -> test x = true ->
  exists before found after,
    l = before ++ found :: after
    /\ test found = true
    /\ (forall y, In y before -> test y = false)
    /\ splice_first test l = before ++ after.
Proof.
  induction l as [|y r IH]; simpl; intros Hin Hx; [destruct Hin|].
  destruct (test y) eqn:Hy.
  - exists [], y, r. simpl. repeat split; auto. intros z [].
  - destruct Hin as [->|Hin]; [congruence|].
    destruct (IH Hin Hx) as (b & f & a & -> & Hf & Hb & Hs).
    exists (y :: b), f, a. simpl. rewrite Hs. repeat split; auto.
    intros z [<-|Hz]; auto.
Qed.

Lemma splice_first_app_fresh {A : Type} (test : A -> bool) l x :
  (forall y, In y l -> test y = false) -> test x = true ->
  splice_first test (l ++ [x]) = l.
Proof.
  induction l as [|y r IH]; simpl; intros H Hx.
  - rewrite Hx. reflexivity.
  - rewrite (H y (or_introl eq_refl)). f_equal. apply IH; auto.
Qed.

Lemma hash_test_false h (l : list TInvoice.t) :
  ~ In h (map TInvoice.payment_hash l) ->
  forall x, In x l -> (TInvoice.payment_hash x =? h) = false.
Proof.
  intros Hn x Hx. apply String.eqb_neq. intros <-.
  apply Hn, in_map, Hx.
Qed.

(** What taking out the first invoice with hash [h] does to a list. *)
Lemma splice_first_hash h (l : list TInvoice.t) :
  (~ In h (map TInvoice.payment_hash l)
   /\ splice_first (fun invoice => TInvoice.payment_hash invoice =? h) l = l)
  \/ (exists before invoice after,
         l = before ++ invoice :: after
         /\ TInvoice.payment_hash invoice = h
         /\ ~ In h (map TInvoice.payment_hash before)
         /\ splice_first (fun invoice => TInvoice.payment_hash invoice =? h) l
            = before ++ after).
Proof.
  destruct (in_dec string_dec h (map TInvoice.payment_hash l)) as [Hin|Hn].
  - right. apply in_map_iff in Hin. destruct Hin as (x & Hx & Hin).
    destruct (splice_first_present
                (fun invoice => TInvoice.payment_hash invoice =? h) l x Hin)
      as (b & f & a & Heq & Hf & Hb & Hs).
    { rewrite Hx. apply String.eqb_refl. }
    exists b, f, a. split; [exact Heq|].
    split; [apply String.eqb_eq, Hf|]. split; [|exact Hs].
    intros Hc. apply in_map_iff in Hc. destruct Hc as (y & Hy & Hyin).
    specialize (Hb y Hyin). simpl in Hb. rewrite Hy, String.eqb_refl in Hb.
    discriminate.
  - left. split; [exact Hn|]. apply splice_first_absent.
    apply hash_test_false, Hn.
Qed.

(** X1. [removeInvoice] with a hash no invoice has leaves the state as it
    is; otherwise it removes the first invoice with that hash, and only
    that one: the invoices before and after it stay, in order. *)
Theorem removeInvoice_removes_first_match :
  forall (state : LightningNodeModelType) (h : string),
    (~ In h (map TInvoice.payment_hash (invoices state)) ->
     removeInvoice h state = state)
    /\ (In h (map TInvoice.payment_hash (invoices state)) ->
        exists before invoice after,
          invoices state = before ++ invoice :: after
          /\ TInvoice.payment_hash invoice = h
          /\ ~ In h (map TInvoice.payment_hash before)
          /\ invoices (removeInvoice h state) = before ++ after).
Proof.
  intros state h. unfold removeInvoice. simpl.
  destruct (splice_first_hash h (invoices state))
    as [[Hn Hs]|(b & i & a & Heq & Hh & Hb & Hs)].
  - split; [|intros Hin; contradiction].
    intros _. rewrite Hs. apply assign_invoices_same.
  - split.
    + intros Hn. exfalso. apply Hn. rewrite Heq, map_app. apply in_or_app.
      right. left. exact Hh.
    + intros _. exists b, i, a. repeat split; assumption.
Qed.

(** X1, witness: removing [abc] from the invoices [abc], [def], and a hash
    that is not there. *)
Lemma removeInvoice_removes_first_match_witness :
  removeInvoice "xyz" two_invoices = two_invoices
  /\ exists before invoice after,
      invoices two_invoices = before ++ invoice :: after
      /\ invoices (removeInvoice "abc" two_invoices) = before ++ after.
Proof.
  split.
  - apply (removeInvoice_removes_first_match two_invoices "xyz").
    simpl. intros [H|[H|[]]]; discriminate.
  - destruct (proj2 (removeInvoice_removes_first_match two_invoices "abc"))
      as (b & i & a & H1 & _ & _ & H2).
    + simpl. left. reflexivity.
    + exists b, i, a. split; assumption.
Defined.

Lemma NoDup_map_splice_first {A B : Type} (f : A -> B) (test : A -> bool) l :
  NoDup (map f l) -> NoDup (map f (splice_first test l)).
Proof.
  induction l as [|x r IH]; simpl; intros H; [constructor|].
  inversion H as [|y ys Hnin Hnd]; subst.
  destruct (test x); [exact Hnd|]. simpl. constructor; [|apply IH, Hnd].
  intros Hin. apply Hnin. apply in_map_iff in Hin.
  destruct Hin as (z & Hz & Hin). apply in_map_iff. exists z.
  split; [exact Hz | eapply splice_first_incl, Hin].
Qed.

Lemma updateInvoice_hashes payload state :
  map TInvoice.payment_hash (invoices (updateInvoice payload state))
  = map TInvoice.payment_hash (invoices state).
Proof.
  unfold updateInvoice. simpl. rewrite map_map. apply map_ext.
  intros invoice.
  destruct (TInvoice.payment_hash invoice
            =? TModifyInvoice.payment_hash payload); reflexivity.
Qed.

Lemma dispatch_invoice_keeps_unique a state :
  unique_payment_hashes state ->
  supplies_fresh_hash state a ->
  unique_payment_hashes (dispatch_invoice a state).
Proof.
  unfold unique_payment_hashes.
  destruct a as [p|p|h|now]; unfold dispatch_invoice, supplies_fresh_hash;
    intros Hu Hf.
  - unfold addInvoice. simpl. rewrite map_app. simpl.
    apply NoDup_app; [exact Hu | |].
    + repeat constructor. simpl. tauto.
    + intros x Hx [<-|[]]. exact (Hf Hx).
  - rewrite updateInvoice_hashes. exact Hu.
  - unfold removeInvoice. simpl. apply NoDup_map_splice_first, Hu.
  - unfold removeExpiredInvoices. simpl. apply NoDup_map_filter, Hu.
Qed.

(** X2. In the states reached by the invoice actions when every added
    invoice brings a hash the store does not hold, no two invoices share a
    payment hash, and [removeInvoice] leaves no invoice with the hash it
    was given. *)
Theorem invoice_hashes_stay_unique :
  forall state : LightningNodeModelType,
    reachable_invoices state ->
    unique_payment_hashes state
    /\ forall h,
        ~ In h (map TInvoice.payment_hash (invoices (removeInvoice h state))).
Proof.
  intros state Hr.
  assert (Hu : unique_payment_hashes state).
  { induction Hr as [|a state _ IH Hf]; [constructor|].
    apply dispatch_invoice_keeps_unique; assumption. }
  split; [exact Hu|]. intros h Hin.
  unfold removeInvoice in Hin. simpl in Hin.
  destruct (splice_first_hash h (invoices state))
    as [[Hn Hs]|(b & i & a & Heq & Hh & Hb & Hs)]; rewrite Hs in Hin.
  - exact (Hn Hin).
  - unfold unique_payment_hashes in Hu.
    rewrite Heq, map_app in Hu. simpl in Hu.
    apply NoDup_remove_2 in Hu. rewrite Hh in Hu. apply Hu.
    rewrite map_app in Hin. exact Hin.
Qed.

(** X2, witness: the invoices [abc] and [def], added one after the other. *)
Lemma invoice_hashes_stay_unique_witness :
  unique_payment_hashes two_invoices
  /\ forall h,
      ~ In h (map TInvoice.payment_hash
                (invoices (removeInvoice h two_invoices))).
Proof.
  apply invoice_hashes_stay_unique.
  apply (reachable_invoices_step (AddInvoice invoice_def)).
  - apply (reachable_invoices_step (AddInvoice invoice_abc)).
    + apply reachable_invoices_init.
    + simpl. tauto.
  - simpl. intros [H|[]]. discriminate.
Defined.

(** X3. [updateInvoice] changes nothing but the encoded request: the
    invoices stay in place with their hash, payee, times, description and
    amount; an invoice with the payload's hash gets the payload's request,
    any other keeps its own; with a hash no invoice has, the state is left as
    it is. *)
Theorem updateInvoice_rewrites_request_only :
  forall (state : LightningNodeModelType) (payload : TModifyInvoice.t),
    let state' := updateInvoice payload state in
    length (invoices state') = length (invoices state)
    /\ (forall i invoice,
           nth_error (invoices state) i = Some invoice ->
           exists invoice',
             nth_error (invoices state') i = Some invoice'
             /\ TInvoice.payment_hash invoice' = TInvoice.payment_hash invoice
             /\ TInvoice.payee_pub_key invoice'
                = TInvoice.payee_pub_key invoice
             /\ TInvoice.timestamp invoice' = TInvoice.timestamp invoice
             /\ TInvoice.expiry_time invoice' = TInvoice.expiry_time invoice
             /\ TInvoice.description invoice' = TInvoice.description invoice
             /\ TInvoice.amount_satoshis invoice'
                = TInvoice.amount_satoshis invoice
             /\ TInvoice.to_str invoice'
                = if TInvoice.payment_hash invoice
                     =? TModifyInvoice.payment_hash payload
                  then TModifyInvoice.modified_request payload
                  else TInvoice.to_str invoice)
    /\ (~ In (TModifyInvoice.payment_hash payload)
           (map TInvoice.payment_hash (invoices state)) ->
        state' = state).
Proof.
  intros state payload state'. subst state'. unfold updateInvoice. simpl.
  split; [apply length_map|]. split.
  - intros i invoice Hi. eexists.
    split; [apply nth_error_map_some, Hi|].
    destruct (TInvoice.payment_hash invoice
              =? TModifyInvoice.payment_hash payload); simpl;
      repeat split; reflexivity.
  - intros Hn.
    rewrite (map_ext_in _ (fun invoice => invoice)).
    + rewrite map_id. apply assign_invoices_same.
    + intros invoice Hin. rewrite (hash_test_false _ _ Hn invoice Hin).
      reflexivity.
Qed.

(** X3, witness: a request for a hash the store does not hold. *)
Lemma updateInvoice_rewrites_request_only_witness :
  updateInvoice (TModifyInvoice.mk "xyz" "lntb1new") two_invoices
  = two_invoices.
Proof.
  apply (updateInvoice_rewrites_request_only two_invoices
           (TModifyInvoice.mk "xyz" "lntb1new")).
  simpl. intros [H|[H|[]]]; discriminate.
Defined.

Lemma filter_filter_implied {A : Type} (f g : A -> bool) l :
  (forall x, g x = true -> f x = true) ->
  filter g (filter f l) = filter g l.
Proof.
  intros H. induction l as [|x r IH]; simpl; [reflexivity|].
  destruct (f x) eqn:Ef; simpl.
  - rewrite IH. reflexivity.
  - destruct (g x) eqn:Eg; [rewrite (H x Eg) in Ef; discriminate | exact IH].
Qed.

(** X4. Pruning expired invoices at one time and again at a later time
    gives the state that pruning once at the later time gives; in
    particular pruning twice at the same time is pruning once. *)
Theorem removeExpiredInvoices_later_subsumes_earlier :
  forall (state : LightningNodeModelType) (earlier later : Z),
    (earlier <= later)%Z ->
    removeExpiredInvoices later (removeExpiredInvoices earlier state)
    = removeExpiredInvoices later state.
Proof.
  intros state earlier later Hle. unfold removeExpiredInvoices.
  destruct state. unfold assign_invoices. simpl. f_equal.
  apply filter_filter_implied. intros invoice H.
  apply Z.ltb_lt in H. apply Z.ltb_lt.
  assert (earlier / 1000 <= later / 1000)%Z
    by (apply Z.div_le_mono; lia).
  lia.
Qed.

(** X4, witness: pruning at second 1700003599, then at 1700003600, when
    [abc] expires. *)
Lemma removeExpiredInvoices_later_subsumes_earlier_witness :
  removeExpiredInvoices 1700003600000
    (removeExpiredInvoices 1700003599000 two_invoices)
  = removeExpiredInvoices 1700003600000 two_invoices.
Proof.
  apply removeExpiredInvoices_later_subsumes_earlier. lia.
Defined.

(* ================================================================== *)
(** ** The node state *)

Lemma setLdkState_each_nodeStarted payloads : forall state,
  nodeStarted (setLdkState_each payloads state)
  = nodeStarted state
    || existsb (fun payload => NodeState_eqb payload COMPLETE) payloads.
Proof.
  unfold setLdkState_each.
  induction payloads as [|p r IH]; intros state; simpl.
  - rewrite orb_false_r. reflexivity.
  - rewrite IH. unfold setLdkState.
    destruct (NodeState_eqb p COMPLETE); simpl.
    + rewrite orb_true_r. reflexivity.
    + reflexivity.
Qed.

Lemma last_cons_default {A : Type} (x : A) l d d' :
  last (x :: l) d = last (x :: l) d'.
Proof.
  revert x. induction l as [|y r IH]; intros x; [reflexivity|].
  change (last (y :: r) d = last (y :: r) d'). apply IH.
Qed.

Lemma setLdkState_each_ldkState payloads : forall state,
  ldkState (setLdkState_each payloads state)
  = last payloads (ldkState state).
Proof.
  unfold setLdkState_each.
  induction payloads as [|p r IH]; intros state; [reflexivity|].
  cbn [fold_left]. rewrite IH.
  assert (Hp : ldkState (setLdkState p state) = p).
  { unfold setLdkState. destruct (NodeState_eqb p COMPLETE); reflexivity. }
  rewrite Hp. destruct r as [|n r]; [reflexivity|].
  change (last (p :: n :: r) (ldkState state))
    with (last (n :: r) (ldkState state)).
  apply last_cons_default.
Qed.

(** X5. [nodeStarted] is a latch under [setLdkState]: after any sequence of
    node states has been set, [nodeStarted] is true exactly when it was true
    before or [COMPLETE] was among them; no node state clears it. The
    state held is the last one set. *)
Theorem setLdkState_latches_nodeStarted :
  forall (payloads : list NodeState) (state : LightningNodeModelType),
    let state' := setLdkState_each payloads state in
    (nodeStarted state' = true <->
     nodeStarted state = true \/ In COMPLETE payloads)
    /\ ldkState state' = last payloads (ldkState state).
Proof.
  intros payloads state state'. subst state'.
  split; [|apply setLdkState_each_ldkState].
  rewrite setLdkState_each_nodeStarted, orb_true_iff, existsb_exists.
  split; intros [H|H]; auto; right.
  - destruct H as (p & Hin & Hp). destruct p; try discriminate. exact Hin.
  - exists COMPLETE. split; [exact H | reflexivity].
Qed.

(* ================================================================== *)
(** ** More about contacts *)

Lemma id_test_false cid (l : list TContact.t) :
  (forall c, In c l -> TContact.id c <> cid) ->
  forall c, In c l -> (TContact.id c =? cid) = false.
Proof. intros H c Hc. apply String.eqb_neq, H, Hc. Qed.

(** X6. For a contact id no contact of the store has, [deleteContact] leaves
    the state as it is, and deleting a contact right after adding it under
    such an id gives back the state from before the addition. *)
Theorem deleteContact_undoes_addContact :
  forall (state : LightningNodeModelType) (payload : TContact.t),
    (forall c, In c (contacts state) ->
               TContact.id c <> TContact.id payload) ->
    deleteContact (TContact.id payload) state = state
    /\ deleteContact (TContact.id payload) (addContact payload state) = state.
Proof.
  intros state payload Hfresh.
  pose proof (id_test_false _ _ Hfresh) as Hf.
  unfold deleteContact, addContact. split.
  - rewrite splice_first_absent; [apply assign_contacts_same | exact Hf].
  - destruct state. unfold assign_contacts. simpl in *. f_equal.
    apply splice_first_app_fresh; [exact Hf | apply String.eqb_refl].
Qed.

(** X6, witness: Carol is added to Alice and Bob, then deleted. *)
Lemma deleteContact_undoes_addContact_witness :
  deleteContact "c3" two_contacts = two_contacts
  /\ deleteContact "c3" (addContact contact_carol two_contacts)
     = two_contacts.
Proof.
  apply (deleteContact_undoes_addContact two_contacts contact_carol).
  simpl. intros c [<-|[<-|[]]]; discriminate.
Defined.

(** X7. An update for a contact id that no contact has creates nothing and
    changes nothing: the state is left as it is. *)
Theorem updateContact_unknown_id_changes_nothing :
  forall (state : LightningNodeModelType) (payload : TUpdateContact),
    (forall c, In c (contacts state) -> TContact.id c <> contactId payload) ->
    updateContact payload state = state.
Proof.
  intros state payload Hfresh. unfold updateContact.
  destruct (Js.truthy_string (contactId payload)); [|reflexivity].
  rewrite (map_ext_in _ (fun contact => contact)).
  - rewrite map_id. apply assign_contacts_same.
  - intros c Hc. rewrite (id_test_false _ _ Hfresh c Hc). reflexivity.
Qed.

(** X7, witness: an address for a contact [c9] nobody has. *)
Lemma updateContact_unknown_id_changes_nothing_witness :
  updateContact
    (mkUpdateContact "c9"
       (TContact.mk "c9" None None (Some [address_a2]) None))
    two_contacts
  = two_contacts.
Proof.
  apply updateContact_unknown_id_changes_nothing.
  simpl. intros c [<-|[<-|[]]]; discriminate.
Defined.

(** X8. An update that carries no identifiers, such as a change of alias,
    loses no address: every contact has the identifiers it had, in order
    (a contact that had no list has the empty list). *)
Theorem updateContact_without_identifiers_keeps_addresses :
  forall (state : LightningNodeModelType) (payload : TUpdateContact),
    TContact.identifiers (updatedContact payload) = None ->
    map (fun c => Js.or_else (TContact.identifiers c) [])
      (contacts (updateContact payload state))
    = map (fun c => Js.or_else (TContact.identifiers c) [])
        (contacts state).
Proof.
  intros state payload Hnone. unfold updateContact.
  destruct (Js.truthy_string (contactId payload)); [|reflexivity].
  simpl. rewrite map_map. apply map_ext. intros c.
  destruct (TContact.id c =? contactId payload); [|reflexivity].
  rewrite Hnone. reflexivity.
Qed.

(** X8, witness: Alice gets a new alias and keeps her address. *)
Lemma updateContact_without_identifiers_keeps_addresses_witness :
  map (fun c => Js.or_else (TContact.identifiers c) [])
    (contacts
       (updateContact
          (mkUpdateContact "c1" (TContact.mk "c1" (Some "Al") None None None))
          two_contacts))
  = [[address_a1]; [address_a1]].
Proof.
  apply (updateContact_without_identifiers_keeps_addresses two_contacts
           (mkUpdateContact "c1"
              (TContact.mk "c1" (Some "Al") None None None))).
  reflexivity.
Defined.

Lemma map_throwing_none {A B : Type} (f : A -> option B) l x :
  In x l -> f x = None -> map_throwing f l = None.
Proof.
  induction l as [|y r IH]; simpl; intros Hin Hx; [destruct Hin|].
  destruct Hin as [->|Hin].
  - rewrite Hx. reflexivity.
  - destruct (f y); [|reflexivity]. rewrite (IH Hin Hx). reflexivity.
Qed.

Lemma Forall2_In_l {A B : Type} (R : A -> B -> Prop) l l' :
  Forall2 R l l' ->
  forall x, In x l -> exists y, In y l' /\ R x y.
Proof.
  induction 1 as [|a b r r' Hab _ IH]; simpl; intros x; [tauto|].
  intros [<-|Hx].
  - exists b. split; [left; reflexivity | exact Hab].
  - destruct (IH x Hx) as (y & Hy & Hr). exists y. split; [right|]; assumption.
Qed.

(** X9. [deleteContactAddress] throws, and the store keeps its state,
    exactly when some contact of the store has no identifier list, be it
    the named contact or any other one. *)
Theorem deleteContactAddress_throws_iff_contact_without_identifiers :
  forall (state : LightningNodeModelType) (payload : TDeleteContactAddress),
    (deleteContactAddress payload state = None <->
     exists c, In c (contacts state) /\ TContact.identifiers c = None)
    /\ (deleteContactAddress payload state = None ->
        dispatch (DeleteContactAddress payload) state = state).
Proof.
  intros state payload. split; [split|].
  - intros Hnone.
    destruct (existsb (fun c => match TContact.identifiers c with
                                | None => true
                                | Some _ => false
                                end) (contacts state)) eqn:E.
    + apply existsb_exists in E. destruct E as (c & Hc & Hi).
      exists c. split; [exact Hc|].
      destruct (TContact.identifiers c); [discriminate | reflexivity].
    + exfalso.
      destruct (deleteContactAddress_total payload state) as [s Hs];
        [|congruence].
      intros c Hc Hi.
      assert (Ht : existsb (fun c => match TContact.identifiers c with
                                     | None => true
                                     | Some _ => false
                                     end) (contacts state) = true).
      { apply existsb_exists. exists c. rewrite Hi. auto. }
      congruence.
  - intros (c & Hc & Hi). unfold deleteContactAddress.
    destruct (map_throwing _ (contacts state)) as [contacts1|] eqn:H1;
      [|reflexivity].
    apply map_throwing_Forall2 in H1.
    destruct (Forall2_In_l _ _ _ H1 c Hc) as (c' & Hc' & Hf).
    simpl in Hf. unfold filter_identifiers in Hf. rewrite Hi in Hf.
    destruct (TContact.id c =? del_contactId payload); [discriminate|].
    injection Hf as <-.
    rewrite (map_throwing_none _ contacts1 c Hc'); [reflexivity|].
    unfold filter_identifiers. rewrite Hi. reflexivity.
  - intros Hnone. simpl. rewrite Hnone. reflexivity.
Qed.

(** X9, witness: Carol was saved without addresses; deleting an address of
    Alice throws. *)
Lemma deleteContactAddress_throws_iff_contact_without_identifiers_witness :
  dispatch (DeleteContactAddress (mkDeleteContactAddress "c1" "a1"))
    (addContact contact_carol two_contacts)
  = addContact contact_carol two_contacts.
Proof.
  apply (deleteContactAddress_throws_iff_contact_without_identifiers
           (addContact contact_carol two_contacts)
           (mkDeleteContactAddress "c1" "a1")).
  reflexivity.
Defined.

(* ================================================================== *)
(** ** More about payments *)

Section JsObjectKeys.
Context {V : Type}.
Implicit Types (o : JsObject.t V) (k : string) (v : V).

Lemma get_none_iff k o : JsObject.get k o = None <-> ~ In k (map fst o).
Proof.
  induction o as [|[k0 v0] r IH]; simpl; [tauto|].
  destruct (String.eqb_spec k0 k) as [->|Hne].
  - split; [discriminate | intros H; exfalso; apply H; auto].
  - rewrite IH. split; [intros H [E|E]; auto | tauto].
Qed.

Lemma keys_replace k v o :
  JsObject.get k o <> None ->
  map fst (JsObject.replace k v o) = map fst o.
Proof.
  induction o as [|[k0 v0] r IH]; simpl; intros H; [reflexivity|].
  destruct (String.eqb_spec k0 k) as [->|Hne]; simpl; [reflexivity|].
  f_equal. apply IH, H.
Qed.

Lemma Forall_replace (P : string * V -> Prop) k v o :
  P (k, v) -> Forall P o -> Forall P (JsObject.replace k v o).
Proof.
  intros Hp. induction 1 as [|[k0 v0] r H0 Hr IH]; simpl; [constructor|].
  destruct (k0 =? k); constructor; auto.
Qed.

Lemma Forall_insert_index (P : string * V -> Prop) n k v o :
  P (k, v) -> Forall P o -> Forall P (JsObject.insert_index n k v o).
Proof.
  intros Hp. induction 1 as [|[k0 v0] r H0 Hr IH]; simpl;
    [repeat constructor; exact Hp|].
  destruct (Js.array_index k0) as [m|]; [destruct (m <? n)%N|];
    repeat constructor; auto.
Qed.

Lemma In_keys_insert_index n k v o x :
  In x (map fst (JsObject.insert_index n k v o))
  <-> x = k \/ In x (map fst o).
Proof.
  induction o as [|[k0 v0] r IH]; simpl; [intuition|].
  destruct (Js.array_index k0) as [m|]; [destruct (m <? n)%N|]; simpl;
    try rewrite IH; intuition.
Qed.

Lemma NoDup_keys_insert_index n k v o :
  ~ In k (map fst o) -> NoDup (map fst o) ->
  NoDup (map fst (JsObject.insert_index n k v o)).
Proof.
  induction o as [|[k0 v0] r IH]; simpl; intros Hk Hnd.
  - repeat constructor. simpl. tauto.
  - inversion Hnd as [|x xs Hnin Hr]; subst.
    assert (Hcons : NoDup (k :: k0 :: map fst r))
      by (constructor; [simpl; tauto | exact Hnd]).
    destruct (Js.array_index k0) as [m|]; [destruct (m <? n)%N|]; simpl;
      try exact Hcons.
    constructor; [|apply IH; tauto].
    rewrite In_keys_insert_index. intros [->|H]; tauto.
Qed.

(** [{...o, [k]: v}] keeps the keys distinct and every property that holds
    of the entries and of the new one. *)
Lemma set_keeps_keys_distinct k v o :
  NoDup (map fst o) -> NoDup (map fst (JsObject.set k v o)).
Proof.
  intros Hnd. unfold JsObject.set, JsObject.has.
  destruct (JsObject.get k o) eqn:Hk.
  - rewrite keys_replace; [exact Hnd | congruence].
  - apply get_none_iff in Hk.
    destruct (Js.array_index k).
    + apply NoDup_keys_insert_index; assumption.
    + rewrite map_app. simpl. apply NoDup_app; [exact Hnd | |].
      * repeat constructor. simpl. tauto.
      * intros x Hx [<-|[]]. exact (Hk Hx).
Qed.

Lemma set_keeps_Forall (P : string * V -> Prop) k v o :
  P (k, v) -> Forall P o -> Forall P (JsObject.set k v o).
Proof.
  intros Hp Ho. unfold JsObject.set.
  destruct (JsObject.has k o); [apply Forall_replace; assumption|].
  destruct (Js.array_index k).
  - apply Forall_insert_index; assumption.
  - apply Forall_app. split; [exact Ho | repeat constructor; exact Hp].
Qed.

End JsObjectKeys.

Lemma assign_first_payment_keys payload o :
  map fst (assign_first_payment payload o) = map fst o.
Proof.
  induction o as [|[k p] r IH]; simpl; [reflexivity|].
  destruct (TInvoice.payment_hash (TLightningPayment.invoice p)
            =? TInvoice.payment_hash (TLightningPayment.invoice payload));
    simpl; [reflexivity | f_equal; exact IH].
Qed.

Lemma assign_first_payment_keeps_keyed payload o :
  Forall (fun entry =>
            fst entry
            = TInvoice.payment_hash (TLightningPayment.invoice (snd entry))) o ->
  Forall (fun entry =>
            fst entry
            = TInvoice.payment_hash (TLightningPayment.invoice (snd entry)))
    (assign_first_payment payload o).
Proof.
  induction 1 as [|[k p] r Hk Hr IH]; simpl; [constructor|].
  destruct (String.eqb_spec
              (TInvoice.payment_hash (TLightningPayment.invoice p))
              (TInvoice.payment_hash (TLightningPayment.invoice payload)))
    as [Hh|Hh]; constructor; auto.
  simpl in *. congruence.
Qed.

Lemma dispatch_payment_keeps_keyed a state :
  payments_keyed_by_hash state ->
  payments_keyed_by_hash (dispatch_payment a state).
Proof.
  unfold payments_keyed_by_hash. intros [Hk Hnd].
  destruct a as [p|p|n]; unfold dispatch_payment.
  - unfold addPayment. simpl. split.
    + apply set_keeps_Forall; [reflexivity | exact Hk].
    + apply set_keeps_keys_distinct, Hnd.
  - unfold updatePayment. simpl. split.
    + apply assign_first_payment_keeps_keyed, Hk.
    + rewrite assign_first_payment_keys. exact Hnd.
  - split; assumption.
Qed.

(** X10. In every state reached from the initial one by [addPayment],
    [updatePayment] and [setNodeId], each payment is stored under the
    payment hash of its own invoice and no key occurs twice. *)
Theorem payments_stay_keyed_by_hash :
  forall state : LightningNodeModelType,
    reachable_payments state -> payments_keyed_by_hash state.
Proof.
  induction 1 as [|a state _ IH].
  - split; constructor.
  - apply dispatch_payment_keeps_keyed, IH.
Qed.

(** X10, witness: the payment for invoice [abc] of node [node123]. *)
Lemma payments_stay_keyed_by_hash_witness :
  payments_keyed_by_hash one_payment.
Proof.
  apply payments_stay_keyed_by_hash.
  apply (reachable_payments_step
           (AddPayment (TLightningPayment.mk invoice_abc sent))).
  apply (reachable_payments_step (SetNodeId "node123")).
  apply reachable_payments_init.
Defined.

Lemma assign_first_payment_keyed_get payload o :
  Forall (fun entry =>
            fst entry
            = TInvoice.payment_hash (TLightningPayment.invoice (snd entry))) o ->
  forall k,
    JsObject.get k (assign_first_payment payload o)
    = if k =? TInvoice.payment_hash (TLightningPayment.invoice payload)
      then option_map (fun p => Object_assign p payload) (JsObject.get k o)
      else JsObject.get k o.
Proof.
  induction 1 as [|[k0 p0] r Hk Hr IH]; intros k; simpl.
  - destruct (k =? _); reflexivity.
  - simpl in Hk.
    destruct (String.eqb_spec
                (TInvoice.payment_hash (TLightningPayment.invoice p0))
                (TInvoice.payment_hash (TLightningPayment.invoice payload)))
      as [Hh|Hh]; simpl.
    + destruct (String.eqb_spec k0 k) as [<-|Hne].
      * assert (E : (k0 =? TInvoice.payment_hash
                             (TLightningPayment.invoice payload)) = true)
          by (apply String.eqb_eq; congruence).
        rewrite E. reflexivity.
      * destruct (String.eqb_spec k
                    (TInvoice.payment_hash
                       (TLightningPayment.invoice payload))) as [->|_];
          [congruence|reflexivity].
    + destruct (String.eqb_spec k0 k) as [<-|Hne].
      * destruct (String.eqb_spec k0
                    (TInvoice.payment_hash
                       (TLightningPayment.invoice payload))) as [E|_];
          [congruence|reflexivity].
      * apply IH.
Qed.

Lemma assign_first_payment_absent payload o :
  Forall (fun entry =>
            fst entry
            = TInvoice.payment_hash (TLightningPayment.invoice (snd entry))) o ->
  JsObject.get (TInvoice.payment_hash (TLightningPayment.invoice payload)) o
  = None ->
  assign_first_payment payload o = o.
Proof.
  induction 1 as [|[k0 p0] r Hk Hr IH]; simpl; [reflexivity|].
  simpl in Hk. rewrite <- Hk.
  destruct (k0 =? TInvoice.payment_hash (TLightningPayment.invoice payload));
    [discriminate|].
  intros Hn. f_equal. apply IH, Hn.
Qed.

(** X11. Where the payments are keyed by the hash of their invoice,
    [updatePayment] is an update at the payload's hash: the payment under
    that hash, if there is one, takes the payload's properties; the payment
    under any other key is as before; no key is added or removed; and with
    no payment under the payload's hash the state is left as it is. *)
Theorem updatePayment_updates_at_payload_hash :
  forall (state : LightningNodeModelType) (payload : TLightningPayment.t),
    payments_keyed_by_hash state ->
    let h := TInvoice.payment_hash (TLightningPayment.invoice payload) in
    let state' := updatePayment payload state in
    (forall k,
        JsObject.get k (payments state')
        = if k =? h
          then option_map (fun p => Object_assign p payload)
                 (JsObject.get k (payments state))
          else JsObject.get k (payments state))
    /\ map fst (payments state') = map fst (payments state)
    /\ (JsObject.get h (payments state) = None -> state' = state).
Proof.
  intros state payload [Hk _] h state'. subst state' h.
  unfold updatePayment. simpl. split; [|split].
  - apply assign_first_payment_keyed_get, Hk.
  - apply assign_first_payment_keys.
  - intros Hn. rewrite assign_first_payment_absent; auto.
    apply assign_payments_same.
Qed.

(** X11, witness: an update for [def] when only [abc] has a payment. *)
Lemma updatePayment_updates_at_payload_hash_witness :
  updatePayment (TLightningPayment.mk invoice_def received) one_payment
  = one_payment.
Proof.
  apply (updatePayment_updates_at_payload_hash one_payment
           (TLightningPayment.mk invoice_def received)).
  - split; simpl; repeat constructor. simpl. tauto.
  - reflexivity.
Defined.

(** X12. A second [addPayment] for a payment hash replaces the payment
    stored under it and adds no entry: the keys are the same, in the same
    order, and the hash now gives the second invoice with the direction
    inferred for it. *)
Theorem addPayment_same_hash_replaces :
  forall (state : LightningNodeModelType) (first second : TLightningPayment.t),
    TInvoice.payment_hash (TLightningPayment.invoice second)
    = TInvoice.payment_hash (TLightningPayment.invoice first) ->
    let state1 := addPayment first state in
    let state2 := addPayment second state1 in
    map fst (payments state2) = map fst (payments state1)
    /\ JsObject.get
         (TInvoice.payment_hash (TLightningPayment.invoice first))
         (payments state2)
       = Some (TLightningPayment.mk (TLightningPayment.invoice second)
                 (inferred_direction state
                    (TLightningPayment.invoice second))).
Proof.
  intros state first second Hh state1 state2. subst state2 state1.
  unfold addPayment at 1 3. simpl. rewrite Hh. split.
  - unfold JsObject.set at 1. unfold JsObject.has.
    unfold addPayment. simpl. rewrite get_set, String.eqb_refl.
    apply keys_replace. rewrite get_set, String.eqb_refl. discriminate.
  - rewrite get_set, String.eqb_refl. reflexivity.
Qed.

(** X12, witness: the payment for [abc] is recorded a second time. *)
Lemma addPayment_same_hash_replaces_witness :
  map fst
    (payments (addPayment (TLightningPayment.mk invoice_abc received)
                 one_payment))
  = ["abc"].
Proof.
  apply (addPayment_same_hash_replaces (setNodeId "node123" lightningModel)
           (TLightningPayment.mk invoice_abc sent)
           (TLightningPayment.mk invoice_abc received)).
  reflexivity.
Defined.

(* ================================================================== *)
(** ** More about the synchronisation loop *)

Lemma keepLdkSynced_loop_schedule env frequency network :
  forall fuel w,
    Ldk.keepLdkSynced_loop env fuel frequency network "" w
    = Ldk.Looping
        (emit_all (concat (repeat (sync_then_sleep network frequency) fuel))
           w).
Proof.
  induction fuel as [|fuel IH]; intros w; simpl.
  - rewrite emit_all_nil. reflexivity.
  - rewrite IH. unfold Ldk.sleep.
    rewrite !emit_emit_all, !emit_all_emit_all. reflexivity.
Qed.

(** X13. Started with the guard flag clear, [keepLdkSynced] sets the flag
    and then its own calls are one [refreshLdk] on the selected network
    followed by one sleep of the given frequency (120000 ms when none is
    given), iteration after iteration: after any number of iterations it
    has made exactly these calls, in this order, the flag is set and the
    promise has not resolved, whatever the sync attempts returned. *)
Theorem keepLdkSynced_alternates_sync_and_sleep :
  forall (env : Env) (fuel : nat) (frequency : option Z)
         (selectedNetwork : option string) (w : World),
    LDKIsStayingSynced w = false ->
    exists w',
      Ldk.keepLdkSynced env fuel frequency selectedNetwork w = Ldk.Looping w'
      /\ LDKIsStayingSynced w' = true
      /\ trace w'
         = trace w
           ++ concat
                (repeat
                   (sync_then_sleep
                      (Ldk.network_or_selected env selectedNetwork)
                      (Js.or_else frequency 120000%Z))
                   fuel).
Proof.
  intros env fuel frequency selectedNetwork w Hflag.
  unfold Ldk.keepLdkSynced. rewrite Hflag.
  rewrite keepLdkSynced_loop_schedule.
  eexists. split; [reflexivity|]. split; reflexivity.
Qed.

(** X13, witness: two iterations with the default frequency. *)
Lemma keepLdkSynced_alternates_sync_and_sleep_witness :
  exists w',
    Ldk.keepLdkSynced env_no_account 2 None None initial_world
    = Ldk.Looping w'
    /\ LDKIsStayingSynced w' = true
    /\ trace w'
       = [Ev_refreshLdk "bitcoinTestnet"; Ev_sleep 120000;
          Ev_refreshLdk "bitcoinTestnet"; Ev_sleep 120000].
Proof.
  apply (keepLdkSynced_alternates_sync_and_sleep env_no_account 2 None None
           initial_world).
  reflexivity.
Defined.

(* ================================================================== *)
(** ** More about setup *)

Lemma lm_start_calls_app t1 t2 :
  lm_start_calls (t1 ++ t2) = (lm_start_calls t1 + lm_start_calls t2)%nat.
Proof. unfold lm_start_calls. rewrite filter_app, length_app. reflexivity. Qed.

(** X14. A [setupLdk] that is not asked to sync, as [refreshLdk] calls it,
    returns [ok] only if the account was loaded, the engine was started
    with it on the selected network and answered with its node id; the
    message then names that id, this call has started the engine exactly
    once, and both event listeners are registered when it returns. *)
Theorem setupLdk_ok_means_started :
  forall (env : Env) (selectedNetwork : option string) (w w' : World)
         (message : string),
    Ldk.setupLdk env selectedNetwork false w = (Returned (ok message), w') ->
    exists account id started,
      getLdkAccount env = Returned (ok account)
      /\ lm_start env account (Ldk.network_or_selected env selectedNetwork)
         = Returned (ok started)
      /\ ldk_nodeId env = Returned (ok id)
      /\ message = ("LDK NodeID: " ++ id)%string
      /\ lm_start_calls (trace w') = S (lm_start_calls (trace w))
      /\ paymentSubscription w' = true
      /\ onChannelSubscription w' = true.
Proof.
  intros env selectedNetwork w w' message.
  unfold Ldk.setupLdk, try_catch, bind, Ldk.resetLdk, call, ret.
  destruct (ldk_reset env) as [r0|e0]; [|discriminate].
  destruct (getLdkAccount env) as [[account|m1]|e1]; try discriminate.
  destruct (setLdkStoragePath env) as [[s2|m2]|e2]; try discriminate.
  destruct (lm_start env account (Ldk.network_or_selected env selectedNetwork))
    as [[s3|m3]|e3] eqn:Hstart; try discriminate.
  destruct (ldk_nodeId env) as [[id|m4]|e4]; try discriminate.
  unfold Helpers.updateLdkNodeId, Ldk.updateLdkVersion, modify, bind, call,
    ret.
  destruct (getNodeVersion env) as [[v|m5]|e5]; try discriminate;
    unfold Ldk.subscribeToPayments, get_world, modify, bind, call, ret;
    simpl;
    destruct (paymentSubscription w) eqn:Hp;
    destruct (onChannelSubscription w) eqn:Hc; simpl;
    rewrite ?Hp, ?Hc; simpl; rewrite ?Hp, ?Hc; simpl;
    intros [= <- <-]; exists account, id, s3;
    (split; [reflexivity|]); (split; [exact Hstart|]);
    (split; [reflexivity|]); (split; [reflexivity|]);
    (split; [simpl; rewrite ?lm_start_calls_app; unfold lm_start_calls;
             simpl; lia|]);
    simpl; split; first [reflexivity | assumption].
Qed.

(** X14, witness: a setup that succeeds in the initial world. *)
Lemma setupLdk_ok_means_started_witness :
  fst (Ldk.setupLdk env_third_sync_fails None false initial_world)
  = Returned (ok "LDK NodeID: node123")
  /\ lm_start_calls
       (trace (snd (Ldk.setupLdk env_third_sync_fails None false
                      initial_world))) = 1%nat
  /\ ldk_nodeId env_third_sync_fails = Returned (ok "node123").
Proof.
  destruct (setupLdk_ok_means_started env_third_sync_fails None initial_world
              (snd (Ldk.setupLdk env_third_sync_fails None false
                      initial_world))
              "LDK NodeID: node123" eq_refl)
    as (account & id & started & _ & _ & Hid & Hmsg & Hcalls & _).
  split; [reflexivity|]. split; [exact Hcalls|].
  injection Hmsg as <-. exact Hid.
Defined.

(** X15. When the engine refuses to start, [setupLdk] returns the failure
    with the engine's message behind the prefix ["@lmStart: "]; it has
    reset the engine, loaded the account, set the storage path and called
    [lm.start] once, and nothing after that: the node id is not asked for,
    the store and the subscriptions are as they were. *)
Theorem setupLdk_start_failure :
  forall (env : Env) (selectedNetwork : option string)
         (shouldRefreshLdk : bool) (w : World) (r : Result string)
         (account : TAccount.t) (path message : string),
    ldk_reset env = Returned r ->
    getLdkAccount env = Returned (ok account) ->
    setLdkStoragePath env = Returned (ok path) ->
    lm_start env account (Ldk.network_or_selected env selectedNetwork)
    = Returned (err message) ->
    Ldk.setupLdk env selectedNetwork shouldRefreshLdk w
    = (Returned (err ("@lmStart: " ++ message)%string),
       emit_all
         [Ev_ldk_reset; Ev_getLdkAccount; Ev_setLdkStoragePath;
          Ev_lm_start account (Ldk.network_or_selected env selectedNetwork)]
         w).
Proof.
  intros env selectedNetwork shouldRefreshLdk w r account path message
    Hreset Hacc Hpath Hstart.
  unfold Ldk.setupLdk, try_catch, bind, Ldk.resetLdk, call, ret.
  rewrite Hreset, Hacc, Hpath, Hstart.
  rewrite !emit_emit_all, !emit_all_emit_all. reflexivity.
Qed.

(** X15, witness: the engine answers "already started". *)
Lemma setupLdk_start_failure_witness :
  Ldk.setupLdk env_start_refused None true initial_world
  = (Returned (err "@lmStart: already started"),
     emit_all
       [Ev_ldk_reset; Ev_getLdkAccount; Ev_setLdkStoragePath;
        Ev_lm_start (TAccount.mk "wallet0" "seed") "bitcoinTestnet"]
       initial_world).
Proof.
  apply (setupLdk_start_failure env_start_refused None true initial_world
           (ok "") (TAccount.mk "wallet0" "seed") "" "already started");
    reflexivity.
Defined.

Lemma onEvent_calls_app type t1 t2 :
  onEvent_calls type (t1 ++ t2)
  = (onEvent_calls type t1 + onEvent_calls type t2)%nat.
Proof. unfold onEvent_calls. rewrite filter_app, length_app. reflexivity. Qed.

(** X16. [subscribeToPayments] registers a listener for an event type only
    if none is recorded for it: afterwards both subscriptions are recorded,
    each type got one new listener if it had none and no new one otherwise,
    the store and the sync guard are untouched, and a further call does
    nothing at all. *)
Theorem subscribeToPayments_registers_once :
  forall (selectedNetwork selectedNetwork' : option string) (w : World),
    exists w',
      Ldk.subscribeToPayments selectedNetwork w = (Returned tt, w')
      /\ paymentSubscription w' = true
      /\ onChannelSubscription w' = true
      /\ store w' = store w
      /\ LDKIsStayingSynced w' = LDKIsStayingSynced w
      /\ onEvent_calls channel_manager_payment_claimed (trace w')
         = (onEvent_calls channel_manager_payment_claimed (trace w)
            + if paymentSubscription w then 0 else 1)%nat
      /\ onEvent_calls new_channel (trace w')
         = (onEvent_calls new_channel (trace w)
            + if onChannelSubscription w then 0 else 1)%nat
      /\ Ldk.subscribeToPayments selectedNetwork' w' = (Returned tt, w').
Proof.
  intros selectedNetwork selectedNetwork' w.
  unfold Ldk.subscribeToPayments, get_world, modify, bind, call, ret.
  destruct w as [st flag ps cs t]. simpl.
  destruct ps, cs; simpl; eexists; (split; [reflexivity|]); simpl;
    rewrite ?onEvent_calls_app; unfold onEvent_calls; simpl;
    repeat split; lia.
Qed.

(* ================================================================== *)
(** ** Chain data *)

(** X17. [_getTransactionData] answers with the default shape or with data
    that hang together: the header is the block the chain source gives for
    the height answered, the transaction is the one of the first answer of
    the chain source, and the height is 0 for a transaction without
    confirmations and [tip - confirmations + 1] otherwise. A thrown lookup,
    an error answer or an answer without data gives the default shape. *)
Theorem getTransactionData_is_default_or_consistent :
  forall (env : Env) (txId : string),
    let answer := Ldk._getTransactionData env txId in
    (answer = DefaultTransactionDataShape
     \/ exists response first rest,
         electrum_getTransactions env txId = Returned response
         /\ Electrum.error response = false
         /\ Electrum.data response = Some (first :: rest)
         /\ Electrum.item_error first = false
         /\ getBlockHex env (TTransactionData.height answer)
            = Returned (ok (TTransactionData.header answer))
         /\ TTransactionData.transaction answer
            = Electrum.hex (Electrum.result first)
         /\ TTransactionData.height answer
            = (if Electrum.confirmations (Electrum.result first) =? 0
               then 0
               else getBlockHeader_height env
                    - Electrum.confirmations (Electrum.result first) + 1)%Z)
    /\ ((forall response,
            electrum_getTransactions env txId = Returned response ->
            Electrum.error response = true
            \/ Electrum.data response = None
            \/ Electrum.data response = Some []) ->
        answer = DefaultTransactionDataShape).
Proof.
  intros env txId answer. subst answer. unfold Ldk._getTransactionData.
  destruct (electrum_getTransactions env txId) as [response|e];
    [|split; [left|]; reflexivity].
  destruct (Electrum.data response) as [[|first rest]|] eqn:Hdata;
    try (split; [left|]; reflexivity).
  destruct (Electrum.error response) eqn:Herr; simpl;
    [split; [left|]; reflexivity|].
  split.
  - destruct (Electrum.item_error first) eqn:Hitem; [left; reflexivity|].
    unfold ToBoolean.
    destruct (Electrum.confirmations (Electrum.result first) =? 0)%Z eqn:Hc;
      simpl.
    + destruct (getBlockHex env 0%Z) as [[header|m]|e] eqn:Hhex;
        try (left; reflexivity).
      right. exists response, first, rest. simpl. rewrite Hhex, Hc.
      repeat split; auto.
    + destruct (getBlockHex env _) as [[header|m]|e] eqn:Hhex;
        try (left; reflexivity).
      right. exists response, first, rest. simpl. rewrite Hhex, Hc.
      repeat split; auto.
  - intros H. destruct (H response eq_refl) as [H1|[H1|H1]]; congruence.
Qed.

(** X17, witness: the chain source cannot be reached. *)
Lemma getTransactionData_is_default_or_consistent_witness :
  Ldk._getTransactionData env_no_account "tx9" = DefaultTransactionDataShape.
Proof.
  apply (getTransactionData_is_default_or_consistent env_no_account "tx9").
  intros response H. discriminate H.
Defined.

(** X18. [getTransactionPosition] answers with a position that is not
    negative, or with -1: it is the position the chain source gives when the
    source reports no error and the position is there and not negative, and
    -1 in every other case. *)
Theorem getTransactionPosition_is_position_or_minus_one :
  forall (getTransactionMerkle : string -> Z -> Merkle.Response)
         (tx_hash : string) (height : Z),
    let response := getTransactionMerkle tx_hash height in
    let answer := getTransactionPosition getTransactionMerkle tx_hash height in
    (-1 <= answer)%Z
    /\ (forall p,
           Merkle.error response = false ->
           Merkle.pos response = Some p ->
           (0 <= p)%Z ->
           answer = p)
    /\ ((Merkle.error response = true
         \/ Merkle.pos response = None
         \/ exists p, Merkle.pos response = Some p /\ (p < 0)%Z) ->
        answer = (-1)%Z).
Proof.
  intros getTransactionMerkle tx_hash height response answer.
  subst answer. unfold getTransactionPosition. fold response.
  destruct (Merkle.error response), (Merkle.pos response) as [p|]; simpl;
    try (split; [lia|split; [intros; congruence | intros; reflexivity]]).
  destruct (Z.ltb_spec p 0).
  - split; [lia|]. split; [intros q _ [= <-] Hq; lia | reflexivity].
  - split; [lia|]. split; [intros q _ [= <-] _; reflexivity|].
    intros [H1|[H1|(q & [= <-] & Hq)]]; try discriminate. lia.
Qed.

(** X18, witness: position 7 for [tx9], an error for another hash. *)
Lemma getTransactionPosition_is_position_or_minus_one_witness :
  getTransactionPosition merkle_of_tx9 "tx9" 102 = 7%Z
  /\ getTransactionPosition merkle_of_tx9 "tx1" 100 = (-1)%Z.
Proof.
  split.
  - destruct (getTransactionPosition_is_position_or_minus_one merkle_of_tx9
                "tx9" 102) as (_ & Hpos & _).
    apply Hpos; [reflexivity | reflexivity | lia].
  - destruct (getTransactionPosition_is_position_or_minus_one merkle_of_tx9
                "tx1" 100) as (_ & _ & Hminus).
    apply Hminus. left. reflexivity.
Defined.

(* ================================================================== *)
(** ** More about watched outputs *)

(** With an unseen entry, a pass started in any world fetches some
    histories and then confirms the first unseen entry. *)
Lemma checkWatchTxs_found_run env data :
  find (unseen env) (watched_history env) = Some data ->
  forall w,
    exists fetched,
      Ldk.checkWatchTxs env w
      = (Returned true,
         emit_all (map Ev_getScriptPubKeyHistory fetched
                   ++ [Ev_setTxConfirmed (confirmation_of env data)]) w).
Proof.
  intros Hfind w.
  destruct (watch_loop_spec env (lm_watchTxs env) [] w)
    as (fetched & _ & _ & Hrun); [intros s []|].
  fold (watched_history env) in Hrun. fold (Ldk.checkWatchTxs env) in Hrun.
  rewrite Hfind in Hrun. exists fetched. exact Hrun.
Qed.

Lemma first_unseen_exists env :
  (exists watchTx data,
      In watchTx (lm_watchTxs env)
      /\ In data (getScriptPubKeyHistory env (TWatchTx.script_pubkey watchTx))
      /\ ~ In (THistory.txid data) (map TWatchTx.txid (lm_watchTxs env))) ->
  exists data, find (unseen env) (watched_history env) = Some data.
Proof.
  intros (watchTx & data & Hw & Hd & Hun).
  destruct (find (unseen env) (watched_history env)) as [first|] eqn:Hfind;
    [exists first; reflexivity|].
  exfalso.
  assert (Hin : In data (watched_history env)).
  { unfold watched_history. apply in_flat_map. exists watchTx. auto. }
  pose proof (proj1 (find_none_iff _ _) Hfind data Hin) as Hfalse.
  apply unseen_true_iff in Hun. congruence.
Qed.

(** X19. [checkWatchTxs] keeps no record of what it has reported. While
    the watch-list and the chain data stay as they are, a pass that found an
    unseen transaction is followed by a pass that returns [true] again and
    sends the same [setTxConfirmed] request, for the same first unseen
    entry, once more. *)
Theorem checkWatchTxs_repeats_itself :
  forall (env : Env) (w : World),
    (exists watchTx data,
        In watchTx (lm_watchTxs env)
        /\ In data (getScriptPubKeyHistory env
                      (TWatchTx.script_pubkey watchTx))
        /\ ~ In (THistory.txid data)
               (map TWatchTx.txid (lm_watchTxs env))) ->
    exists data,
      let txData := Ldk._getTransactionData env (THistory.txid data) in
      let request :=
        TSetTxConfirmedReq.mk
          (TTransactionData.header txData)
          (TTransactionData.height txData)
          [(TTransactionData.transaction txData, 0%Z)] in
      let first_pass := Ldk.checkWatchTxs env w in
      let second_pass := Ldk.checkWatchTxs env (snd first_pass) in
      find (unseen env) (watched_history env) = Some data
      /\ fst first_pass = Returned true
      /\ fst second_pass = Returned true
      /\ setTxConfirmed_calls (trace (snd second_pass))
         = setTxConfirmed_calls (trace w) ++ [request; request].
Proof.
  intros env w Hex.
  destruct (first_unseen_exists env Hex) as [data Hfind].
  exists data. cbv zeta. split; [exact Hfind|].
  destruct (checkWatchTxs_found_run env data Hfind w) as [f1 H1].
  rewrite H1. simpl.
  destruct (checkWatchTxs_found_run env data Hfind
              (emit_all (map Ev_getScriptPubKeyHistory f1
                         ++ [Ev_setTxConfirmed (confirmation_of env data)])
                 w)) as [f2 H2].
  rewrite H2. simpl. split; [reflexivity|]. split; [reflexivity|].
  rewrite !setTxConfirmed_calls_app, !setTxConfirmed_calls_fetches.
  simpl. rewrite <- app_assoc. reflexivity.
Qed.

(** X19, witness: two passes over the watch-list of [env_two_scripts]
    confirm [tx9] twice. *)
Lemma checkWatchTxs_repeats_itself_witness :
  setTxConfirmed_calls
    (trace (snd (Ldk.checkWatchTxs env_two_scripts
                   (snd (Ldk.checkWatchTxs env_two_scripts initial_world)))))
  = [TSetTxConfirmedReq.mk "header102" 102 [("rawtx9", 0%Z)];
     TSetTxConfirmedReq.mk "header102" 102 [("rawtx9", 0%Z)]].
Proof.
  destruct (checkWatchTxs_repeats_itself env_two_scripts initial_world)
    as (data & Hfirst & _ & _ & Hcalls).
  - exists (TWatchTx.mk "tx2" "s2"), (THistory.mk "tx9" 102). simpl.
    split; [right; left; reflexivity|].
    split; [right; left; reflexivity|].
    intros [H|[H|[]]]; discriminate.
  - cbv in Hfirst. injection Hfirst as <-. rewrite Hcalls. reflexivity.
Defined.

(** An idle pass of the outer loop fetches every watched script that was
    not checked before, each once. *)
Lemma watch_loop_idle env :
  forall watchTxs checked w,
    (forall watchTx,
        In watchTx watchTxs ->
        find (unseen env)
          (getScriptPubKeyHistory env (TWatchTx.script_pubkey watchTx))
        = None) ->
    exists fetched,
      NoDup fetched
      /\ (forall s, In s fetched <->
                    In s (map TWatchTx.script_pubkey watchTxs)
                    /\ ~ In s checked)
      /\ Ldk.watch_loop env (map TWatchTx.txid (lm_watchTxs env)) checked
           watchTxs w
         = (Returned false,
            emit_all (map Ev_getScriptPubKeyHistory fetched) w).
Proof.
  induction watchTxs as [|watchTx rest IH]; intros checked w Hidle.
  - exists []. simpl. rewrite emit_all_nil.
    split; [constructor|]. split; [tauto | reflexivity].
  - assert (Hrest : forall watchTx0,
               In watchTx0 rest ->
               find (unseen env)
                 (getScriptPubKeyHistory env
                    (TWatchTx.script_pubkey watchTx0)) = None)
      by (intros x Hx; apply Hidle; right; exact Hx).
    simpl.
    destruct (Js.includes (TWatchTx.script_pubkey watchTx) checked) eqn:Hinc;
      simpl.
    + apply includes_In in Hinc.
      destruct (IH checked w Hrest) as (fetched & Hnd & Hiff & Hrun).
      exists fetched. split; [exact Hnd|]. split; [|exact Hrun].
      intros s. rewrite Hiff. split; [tauto|].
      intros [[<-|Hs] Hn]; [contradiction | tauto].
    + apply includes_false_In in Hinc.
      destruct (IH (checked ++ [TWatchTx.script_pubkey watchTx])
                  (emit (Ev_getScriptPubKeyHistory
                           (TWatchTx.script_pubkey watchTx)) w) Hrest)
        as (fetched & Hnd & Hiff & Hrun).
      exists (TWatchTx.script_pubkey watchTx :: fetched).
      split; [|split].
      * constructor; [|exact Hnd]. rewrite Hiff. intros [_ Hn].
        apply Hn, in_or_app. right. left. reflexivity.
      * intros s. simpl. rewrite Hiff, in_app_iff. simpl.
        destruct (string_dec (TWatchTx.script_pubkey watchTx) s) as [<-|Hne];
          tauto.
      * unfold bind at 1, call. unfold bind at 1.
        rewrite history_loop_spec,
          (Hidle watchTx (or_introl eq_refl)), Hrun.
        rewrite emit_emit_all, emit_all_emit_all. reflexivity.
Qed.

(** X20. When no history of a watched script holds a transaction the
    watch-list does not know, [checkWatchTxs] returns [false] after asking
    for the history of every script of the watch-list exactly once, however
    often the script is listed, and it makes no other call. *)
Theorem checkWatchTxs_idle_pass_fetches_each_script_once :
  forall (env : Env) (w : World),
    (forall watchTx data,
        In watchTx (lm_watchTxs env) ->
        In data (getScriptPubKeyHistory env (TWatchTx.script_pubkey watchTx)) ->
        In (THistory.txid data) (map TWatchTx.txid (lm_watchTxs env))) ->
    exists fetched,
      Ldk.checkWatchTxs env w
      = (Returned false, emit_all (map Ev_getScriptPubKeyHistory fetched) w)
      /\ NoDup fetched
      /\ (forall s, In s fetched <->
                    In s (map TWatchTx.script_pubkey (lm_watchTxs env)))
      /\ (length fetched <= length (lm_watchTxs env))%nat.
Proof.
  intros env w Hidle.
  destruct (watch_loop_idle env (lm_watchTxs env) [] w)
    as (fetched & Hnd & Hiff & Hrun).
  { intros watchTx Hin. apply find_none_iff. intros data Hd.
    destruct (unseen env data) eqn:Hu; [|reflexivity].
    apply unseen_true_iff in Hu. exfalso. apply Hu.
    exact (Hidle watchTx data Hin Hd). }
  exists fetched. split; [exact Hrun|]. split; [exact Hnd|]. split.
  - intros s. rewrite Hiff. simpl. tauto.
  - rewrite <- (length_map TWatchTx.script_pubkey).
    apply NoDup_incl_length; [exact Hnd|].
    intros s Hs. apply Hiff in Hs. tauto.
Qed.

(** X20, witness: one script listed twice, nothing unseen in its history. *)
Lemma checkWatchTxs_idle_pass_fetches_each_script_once_witness :
  exists fetched,
    Ldk.checkWatchTxs env_start_refused initial_world
    = (Returned false,
       emit_all (map Ev_getScriptPubKeyHistory fetched) initial_world)
    /\ (length fetched <= 2)%nat.
Proof.
  destruct (checkWatchTxs_idle_pass_fetches_each_script_once
              env_start_refused initial_world)
    as (fetched & Hrun & _ & _ & Hlen).
  - simpl. intros watchTx data [<-|[<-|[]]] [<-|[<-|[]]]; simpl; tauto.
  - exists fetched. split; [exact Hrun | exact Hlen].
Defined.
